(** * function.h: a type-erased callable container with small-buffer storage

    A shallow embedding of [function<R(Args...)>] and of its operation table
    [type_descriptor<R, Args...>].  C++ objects live in an explicit store:
    [function] objects are identified by their address ([cid]), heap cells by
    the address [operator new] returned.  Every member function is a
    computation over that store which either returns, throws, or has
    undefined behaviour.

    The containers of the store are objects whose lifetime the program
    controls directly: variables and temporaries.  The value of a stored
    callable is opaque and its special members act on that value alone; a
    [function] whose lifetime a stored callable controls, because it is a
    member of the callable or the target of a pointer the callable owns, is
    not a container of the store. *)

From stdpp Require Import base option gmap.
From Stdlib Require Import ZArith Lia.

Local Open Scope Z_scope.

(** ** Exceptions *)

(** [bad_function_call] is the one exception type the header defines;
    [bad_alloc] is what [operator new] throws, [thrown] stands for whatever
    a stored callable's own constructors or call operator throw. *)
Inductive exn :=
  | bad_function_call
  | bad_alloc
  | thrown (code : Z).

Global Instance exn_eq_dec : EqDecision exn.
Proof. solve_decision. Defined.

(** ** The stored types

    The header is generic in the stored type [T]; what it uses of [T] is its
    layout, its copy and move constructors, its destructor and its call
    operator.  [tname] names the concrete types, [val] is the representation
    of their values.  A destructor may be declared [noexcept(false)], which
    the traits see; the runs modelled are those in which it does not throw. *)

(** A move constructor returns the new object together with the state it
    leaves its argument in.  Whether it is declared [noexcept] is part of its
    type, as in C++. *)
Inductive move_ctor_t (val : Type) :=
  | move_noexcept (f : val → val * val)
  | move_throwing (f : val → exn + val * val).
Arguments move_noexcept {val} f.
Arguments move_throwing {val} f.

Class CxxTypes (tname val Args R : Type) := {
  tname_eq_dec :: EqDecision tname;
  sizeof : tname → Z;
  alignof : tname → Z;
  copy_ctor : tname → val → exn + val;          (* T(T const&) *)
  move_ctor : tname → move_ctor_t val;          (* T(T&&) *)
  nothrow_destructor : tname → bool;            (* ~T() is noexcept *)
  call : tname → val → Args → exn + R;          (* T::operator()(Args...) const *)
  sizeof_ptr : Z;                               (* sizeof(void* ) *)
  alignof_ptr : Z                               (* alignof(void* ) *)
}.

(** ** Memory *)

Abbreviation cid := positive (only parsing).
Abbreviation addr := positive (only parsing).

(** [storage_t] is one pointer of raw bytes.  It holds nothing, an object
    constructed in place, or the address of a heap cell. *)
Inductive storage_t (val : Type) :=
  | slot_uninit
  | slot_obj (v : val)
  | slot_ptr (a : addr).
Arguments slot_uninit {val}.
Arguments slot_obj {val} v.
Arguments slot_ptr {val} a.

(** The address of a [type_descriptor]: of the static [empty] of
    [get_empty_func_descriptor], or of the static [result] of the
    instantiation [get_func_descriptor<T>]. *)
Inductive desc_ptr (tname : Type) :=
  | empty_desc
  | func_desc (T : tname).
Arguments empty_desc {tname}.
Arguments func_desc {tname} T.

Global Instance desc_ptr_eq_dec `{EqDecision tname} : EqDecision (desc_ptr tname).
Proof. solve_decision. Defined.

(** The two data members of [function]. *)
Record function_obj (tname val : Type) := mk_function {
  desc : desc_ptr tname;
  buf : storage_t val
}.
Arguments mk_function {tname val} desc buf.
Arguments desc {tname val} f.
Arguments buf {tname val} f.

(** A [T*]: null, the address of the [buf] of a container, or a heap cell. *)
Inductive ptr :=
  | nullptr
  | buf_ptr (c : cid)
  | heap_ptr (a : addr).

Global Instance ptr_eq_dec : EqDecision ptr.
Proof. solve_decision. Defined.

(** What the stored type's special members and the allocator were asked to
    do, in program order. *)
Inductive event (tname val : Type) :=
  | ev_new (a : addr)
  | ev_delete (a : addr)
  | ev_copy (T : tname) (v : val)
  | ev_move (T : tname) (v : val)
  | ev_dtor (T : tname) (v : val).
Arguments ev_new {tname val} a.
Arguments ev_delete {tname val} a.
Arguments ev_copy {tname val} T v.
Arguments ev_move {tname val} T v.
Arguments ev_dtor {tname val} T v.

Record state (tname val : Type) := mk_state {
  objs : gmap cid (function_obj tname val);  (* the live containers *)
  heap : gmap addr val;                      (* the live heap cells *)
  heap_cap : nat;                            (* cells the allocator can serve *)
  trace : list (event tname val)
}.
Arguments mk_state {tname val} objs heap heap_cap trace.
Arguments objs {tname val} s.
Arguments heap {tname val} s.
Arguments heap_cap {tname val} s.
Arguments trace {tname val} s.

(** ** Computations *)

Inductive outcome (tname val A : Type) :=
  | Val (a : A) (s : state tname val)
  | Exn (e : exn) (s : state tname val)
  | Undef.
Arguments Val {tname val A} a s.
Arguments Exn {tname val A} e s.
Arguments Undef {tname val A}.

Definition M (tname val A : Type) : Type := state tname val → outcome tname val A.

Definition ret {tname val A} (a : A) : M tname val A := λ s, Val a s.

Definition bind {tname val A B} (m : M tname val A) (k : A → M tname val B) : M tname val B :=
  λ s, match m s with
       | Val a s' => k a s'
       | Exn e s' => Exn e s'
       | Undef => Undef
       end.

Declare Scope cxx_scope.
Delimit Scope cxx_scope with cxx.
Notation "x ← y ; z" := (bind y (λ x, z))
  (at level 20, y at level 100, z at level 200, only parsing) : cxx_scope.
Notation "y ;; z" := (bind y (λ _, z))
  (at level 100, z at level 200, only parsing, right associativity) : cxx_scope.
Local Open Scope cxx_scope.

Section primitives.
Context {tname val : Type}.
#[local] Abbreviation M := (M tname val).
#[local] Abbreviation state := (state tname val).

Definition throw {A} (e : exn) : M A := λ s, Exn e s.
Definition undef {A} : M A := λ _, Undef.

Definition set_objs (f : gmap cid (function_obj tname val) → gmap cid (function_obj tname val))
    (s : state) : state :=
  mk_state (f (objs s)) (heap s) (heap_cap s) (trace s).
Definition set_heap (f : gmap addr val → gmap addr val) (s : state) : state :=
  mk_state (objs s) (f (heap s)) (heap_cap s) (trace s).

Definition log (e : event tname val) : M unit := λ s,
  Val () (mk_state (objs s) (heap s) (heap_cap s) (trace s ++ [e])).

(** Reading the data members of the container at [c]. *)
Definition get_obj (c : cid) : M (function_obj tname val) := λ s,
  match objs s !! c with
  | Some o => Val o s
  | None => Undef
  end.
Definition get_desc (c : cid) : M (desc_ptr tname) := o ← get_obj c; ret (desc o).
Definition get_buf (c : cid) : M (storage_t val) := o ← get_obj c; ret (buf o).

Definition set_desc (c : cid) (d : desc_ptr tname) : M unit :=
  o ← get_obj c; λ s, Val () (set_objs <[c := mk_function d (buf o)]> s).
Definition set_buf (c : cid) (b : storage_t val) : M unit :=
  o ← get_obj c; λ s, Val () (set_objs <[c := mk_function (desc o) b]> s).

(** [*p] as an rvalue and as the target of an assignment. *)
Definition load (p : ptr) : M val :=
  match p with
  | nullptr => undef
  | buf_ptr c =>
      b ← get_buf c;
      match b with slot_obj v => ret v | _ => undef end
  | heap_ptr a => λ s,
      match heap s !! a with
      | Some v => Val v s
      | None => Undef
      end
  end.

Definition store (p : ptr) (w : val) : M unit :=
  match p with
  | nullptr => undef
  | buf_ptr c =>
      b ← get_buf c;
      match b with slot_obj _ => set_buf c (slot_obj w) | _ => undef end
  | heap_ptr a => λ s,
      match heap s !! a with
      | Some _ => Val () (set_heap <[a := w]> s)
      | None => Undef
      end
  end.

(** [operator new]: a cell no live object occupies, or [bad_alloc]. *)
Definition operator_new : M addr := λ s,
  if decide (size (heap s) < heap_cap s)%nat
  then let a := fresh (dom (heap s)) in
       Val a (mk_state (objs s) (heap s) (heap_cap s) (trace s ++ [ev_new a]))
  else Exn bad_alloc s.

(** [operator delete]. *)
Definition operator_delete (a : addr) : M unit := λ s,
  match heap s !! a with
  | Some _ =>
      Val () (mk_state (objs s) (delete a (heap s)) (heap_cap s) (trace s ++ [ev_delete a]))
  | None => Undef
  end.

(** Run [m]; should it throw, run [h] on the state it threw in and let the
    exception continue. *)
Definition on_unwind {A} (h : state → state) (m : M A) : M A := λ s,
  match m s with
  | Val a s' => Val a s'
  | Exn e s' => Exn e (h s')
  | Undef => Undef
  end.
End primitives.

(** ** The operation table *)

(** [type_descriptor<R, Args...>]: four function pointers.  The storage
    arguments are references to the [buf] of a container, given here by the
    container's address. *)
Record type_descriptor (tname val Args R : Type) := mk_descriptor {
  copy : cid → cid → M tname val unit;       (* (storage_t const& src, storage_t& dst) *)
  move : cid → cid → M tname val unit;       (* (storage_t& src, storage_t& dst) *)
  destroy : cid → M tname val unit;          (* (storage_t& src) *)
  invoke : cid → Args → M tname val R        (* (storage_t const& src, Args... args) *)
}.
Arguments mk_descriptor {tname val Args R} copy move destroy invoke.
Arguments copy {tname val Args R} t src dst.
Arguments move {tname val Args R} t src dst.
Arguments destroy {tname val Args R} t src.
Arguments invoke {tname val Args R} t src args.

Section function.
Context {tname val Args R : Type} `{!CxxTypes tname val Args R}.
#[local] Abbreviation M := (M tname val).
#[local] Abbreviation state := (state tname val).
#[local] Abbreviation desc_ptr := (desc_ptr tname).
#[local] Abbreviation type_descriptor := (type_descriptor tname val Args R).

(** Whether [T(T&&)] is declared [noexcept]. *)
Definition nothrow_move_ctor (T : tname) : bool :=
  match move_ctor T with
  | move_noexcept _ => true
  | move_throwing _ => false
  end.

(** [std::is_nothrow_move_constructible_v<T>]: whether the expression
    [T(std::declval<T&&>())] is known not to throw.  The expression constructs
    a temporary and destroys it, so the trait asks for a non-throwing
    destructor as much as for a non-throwing move constructor. *)
Definition is_nothrow_move_constructible (T : tname) : bool :=
  nothrow_move_ctor T && nothrow_destructor T.

(** The expression [T(std::move(x))]. *)
Definition move_construct (T : tname) (v : val) : exn + val * val :=
  match move_ctor T with
  | move_noexcept f => inr (f v)
  | move_throwing f => f v
  end.

(** [storage_t] is [std::aligned_storage_t<sizeof(void* ), alignof(void* )>]:
    its alignment is that of a pointer. *)
Definition alignof_storage_t : Z := alignof_ptr.

Definition is_small (T : tname) : bool :=
  (sizeof T <=? sizeof_ptr) && is_nothrow_move_constructible T
  && (alignof_storage_t `mod` alignof T =? 0).

(** [get_pointer<T>(buf)], for the [buf] of the container at [c]. *)
Definition get_pointer (T : tname) (c : cid) : M ptr :=
  if is_small T then ret (buf_ptr c)
  else b ← get_buf c;
       match b with
       | slot_ptr a => ret (heap_ptr a)
       | _ => undef
       end.

(** [new T(x)] with [x] read through [p]; [init] is the constructor used.
    The cell is obtained first; a constructor that throws gives it back. *)
Definition new_expr (init : val → exn + val) (p : M val) : M addr :=
  a ← operator_new;
  v ← p;
  match init v with
  | inr v' => λ s, Val a (set_heap <[a := v']> s)
  | inl e => log (ev_delete a);; throw e
  end.

(** [delete p] *)
Definition delete_expr (T : tname) (p : ptr) : M unit :=
  match p with
  | nullptr => ret ()
  | heap_ptr a => v ← load p; log (ev_dtor T v);; operator_delete a
  | buf_ptr _ => undef
  end.

(** [p->~T()] for an object constructed in the [buf] of [c]. *)
Definition destructor_call (T : tname) (c : cid) (p : ptr) : M unit :=
  v ← load p; log (ev_dtor T v);; set_buf c slot_uninit.

Definition get_empty_func_descriptor : desc_ptr := empty_desc.

(** The static [empty] of [get_empty_func_descriptor]. *)
Definition empty : type_descriptor :=
  mk_descriptor
    (λ src dst, ret ())
    (λ src dst, ret ())
    (λ src, ret ())
    (λ src args, throw bad_function_call).

Definition get_func_descriptor (T : tname) : desc_ptr := func_desc T.

(** The static [result] of [get_func_descriptor<T>]. *)
Definition result (T : tname) : type_descriptor :=
  mk_descriptor
    (λ src dst,
       if is_small T then
         p ← get_pointer T src;
         v ← load p;
         log (ev_copy T v);;
         match copy_ctor T v with
         | inr v' => set_buf dst (slot_obj v')
         | inl e => throw e
         end
       else
         a ← new_expr (λ v, copy_ctor T v)
                (p ← get_pointer T src; v ← load p; log (ev_copy T v);; ret v);
         set_buf dst (slot_ptr a))
    (λ src dst,
       if is_small T then
         p ← get_pointer T src;
         v ← load p;
         log (ev_move T v);;
         match move_construct T v with
         | inr (v', r) =>
             set_buf dst (slot_obj v');;
             store p r;;
             p' ← get_pointer T src;
             destructor_call T src p'
         | inl e => throw e
         end
       else
         b ← get_buf src;
         match b with
         | slot_ptr a => set_buf dst (slot_ptr a)
         | _ => undef
         end)
    (λ src,
       if is_small T then
         p ← get_pointer T src;
         destructor_call T src p
       else
         p ← get_pointer T src;
         delete_expr T p)
    (λ src args,
       p ← get_pointer T src;
       v ← load p;
       match call T v args with
       | inr r => ret r
       | inl e => throw e
       end).

(** [*d] for a descriptor pointer [d]. *)
Definition descriptor_at (d : desc_ptr) : type_descriptor :=
  match d with
  | empty_desc => empty
  | func_desc T => result T
  end.

(** ** The container *)

(** A constructor runs on storage no live object occupies; its
    mem-initializer sets [desc] and leaves [buf] uninitialised.  If the body
    throws, the object never existed. *)
Definition begin_lifetime (this : cid) (d : desc_ptr) : M unit := λ s,
  match objs s !! this with
  | Some _ => Undef
  | None => Val () (set_objs <[this := mk_function d slot_uninit]> s)
  end.

Definition end_lifetime (this : cid) : state → state := set_objs (delete this).

Definition constructor (this : cid) (d : desc_ptr) (body : M unit) : M unit :=
  begin_lifetime this d;; on_unwind (end_lifetime this) body.

(** The address of a temporary or local: any address no live object has. *)
Definition temporary : M cid := λ s, Val (fresh (dom (objs s))) s.

(** [function() noexcept] *)
Definition function_default (this : cid) : M unit :=
  constructor this get_empty_func_descriptor (ret ()).

(** [function(function const& other)] *)
Definition function_copy (this other : cid) : M unit :=
  d ← get_desc other;
  constructor this d
    (d ← get_desc this;
     copy (descriptor_at d) other this).

(** [function(function&& other) noexcept] *)
Definition function_move (this other : cid) : M unit :=
  d ← get_desc other;
  constructor this d
    (d ← get_desc this;
     move (descriptor_at d) other this;;
     set_desc other get_empty_func_descriptor).

(** [template <typename T> function(T val)].  The parameter [val] belongs to
    the caller, who destroys what the move leaves of it once the constructor
    is done; that destruction is not part of the constructor. *)
Definition function_value (T : tname) (this : cid) (v : val) : M unit :=
  constructor this (get_func_descriptor T)
    (if is_small T then
       log (ev_move T v);;
       match move_construct T v with
       | inr (v', _) => set_buf this (slot_obj v')
       | inl e => throw e
       end
     else
       a ← new_expr (λ v, match move_construct T v with
                          | inr (v', _) => inr v'
                          | inl e => inl e
                          end)
              (log (ev_move T v);; ret v);
       set_buf this (slot_ptr a)).

(** [~function()] *)
Definition destructor (this : cid) : M unit :=
  d ← get_desc this;
  destroy (descriptor_at d) this;;
  λ s, Val () (end_lifetime this s).

(** [function& operator=(function&& rhs) noexcept].  Both [this] and [rhs]
    name containers of the store.  The payload of [this] is destroyed before
    [rhs] is read: the assignment is meaningful only for a [rhs] that
    outlives that payload, which every container of the store does. *)
Definition operator_assign_move (this rhs : cid) : M unit :=
  if decide (this = rhs) then ret ()
  else
    d ← get_desc this;
    destroy (descriptor_at d) this;;
    d ← get_desc rhs;
    set_desc this d;;
    d ← get_desc this;
    move (descriptor_at d) rhs this;;
    set_desc rhs get_empty_func_descriptor.

(** [void swap(function& other) noexcept] *)
Definition swap (this other : cid) : M unit :=
  tmp ← temporary;
  function_move tmp this;;
  operator_assign_move this other;;
  operator_assign_move other tmp;;
  destructor tmp.

(** [function& operator=(function const& rhs)] *)
Definition operator_assign_copy (this rhs : cid) : M unit :=
  if decide (this = rhs) then ret ()
  else
    tmp ← temporary;
    function_copy tmp rhs;;
    swap tmp this;;
    destructor tmp.

(** [explicit operator bool() const noexcept] *)
Definition operator_bool (this : cid) : M bool :=
  d ← get_desc this;
  ret (bool_decide (d ≠ get_empty_func_descriptor)).

(** [R operator()(Args... args) const] *)
Definition operator_call (this : cid) (args : Args) : M R :=
  b ← operator_bool this;
  if Bool.eqb (negb b) true then throw bad_function_call
  else
    d ← get_desc this;
    invoke (descriptor_at d) this args.

(** [template <typename T> T* target() noexcept] *)
Definition target (T : tname) (this : cid) : M ptr :=
  d ← get_desc this;
  if decide (d = get_func_descriptor T) then get_pointer T this
  else ret nullptr.
End function.

(** ** What a container holds *)

Section abstraction.
Context {tname val Args R : Type} `{!CxxTypes tname val Args R}.

(** The type and value of the callable a container owns, read off its two
    members according to [is_small]. *)
Definition held (s : state tname val) (c : cid) : option (tname * val) :=
  match objs s !! c with
  | None => None
  | Some o =>
      match desc o with
      | empty_desc => None
      | func_desc T =>
          if is_small T then
            match buf o with
            | slot_obj v => Some (T, v)
            | _ => None
            end
          else
            match buf o with
            | slot_ptr a =>
                match heap s !! a with
                | Some v => Some (T, v)
                | None => None
                end
            | _ => None
            end
      end
  end.

(** The heap cell a container owns, if its callable is stored indirectly. *)
Definition owned (s : state tname val) (c : cid) : option addr :=
  match objs s !! c with
  | None => None
  | Some o =>
      match desc o with
      | empty_desc => None
      | func_desc T =>
          if is_small T then None
          else match buf o with
               | slot_ptr a => Some a
               | _ => None
               end
      end
  end.

(** A live container whose two members agree: bound to the empty record,
    or to the record of the type of the callable in its slot. *)
Definition consistent (s : state tname val) (c : cid) : bool :=
  match objs s !! c with
  | None => false
  | Some o =>
      match desc o with
      | empty_desc => true
      | func_desc _ => bool_decide (is_Some (held s c))
      end
  end.

(** What destroying the payload of [c] asks of the stored type and of the
    allocator. *)
Definition destroy_trace (s : state tname val) (c : cid) : list (event tname val) :=
  match held s c with
  | None => []
  | Some (U, u) =>
      match owned s c with
      | None => [ev_dtor U u]
      | Some a => [ev_dtor U u; ev_delete a]
      end
  end.

(** The same for a payload [h] wherever it is by now, [a] being the cell
    that has it if it is stored indirectly. *)
Definition payload_trace (h : option (tname * val)) (a : option addr) :
    list (event tname val) :=
  match h with
  | None => []
  | Some (U, u) =>
      match a with
      | None => [ev_dtor U u]
      | Some a => [ev_dtor U u; ev_delete a]
      end
  end.

(** What moving the payload of [c] into another slot asks of the stored
    type: nothing for a type stored indirectly, a move construction and
    the destruction of the moved-from object for one stored in place. *)
Definition move_trace (s : state tname val) (c : cid) : list (event tname val) :=
  match held s c with
  | None => []
  | Some (T, v) =>
      if is_small T then
        match move_construct T v with
        | inr (_, r) => [ev_move T v; ev_dtor T r]
        | inl _ => []
        end
      else []
  end.

(** [*c.target<T>()] *)
Definition deref_target (T : tname) (c : cid) : M tname val val :=
  p ← target T c; load p.

(** What a payload is once the [move] of its record has carried it to
    another slot: the same object for a type stored indirectly, what the move
    constructor made of it for a type stored in place. *)
Definition relocate (h : option (tname * val)) : option (tname * val) :=
  match h with
  | None => None
  | Some (T, v) =>
      if is_small T then
        match move_construct T v with
        | inr (v', _) => Some (T, v')
        | inl _ => None
        end
      else Some (T, v)
  end.

(** The heap once the cell [a], if any, is given back. *)
Definition release (a : option addr) (h : gmap addr val) : gmap addr val :=
  match a with
  | Some a => delete a h
  | None => h
  end.
End abstraction.

(** ** The interface as a transition system

    What a client can do with containers: the public members of [function],
    and an assignment through the pointer [target] returns. *)
Inductive api (tname val Args : Type) :=
  | api_default (c : cid)                        (* function f;               *)
  | api_value (T : tname) (c : cid) (v : val)    (* function f(v);            *)
  | api_copy (c other : cid)                     (* function f(g);            *)
  | api_move (c other : cid)                     (* function f(std::move(g)); *)
  | api_destructor (c : cid)                     (* f.~function();            *)
  | api_assign_copy (this rhs : cid)             (* f = g;                    *)
  | api_assign_move (this rhs : cid)             (* f = std::move(g);         *)
  | api_bool (c : cid)                           (* bool(f)                   *)
  | api_call (c : cid) (args : Args)             (* f(args...)                *)
  | api_target (T : tname) (c : cid)             (* f.target<T>()             *)
  | api_store (T : tname) (c : cid) (w : val).   (* *f.target<T>() = w;       *)
Arguments api_default {tname val Args} c.
Arguments api_value {tname val Args} T c v.
Arguments api_copy {tname val Args} c other.
Arguments api_move {tname val Args} c other.
Arguments api_destructor {tname val Args} c.
Arguments api_assign_copy {tname val Args} this rhs.
Arguments api_assign_move {tname val Args} this rhs.
Arguments api_bool {tname val Args} c.
Arguments api_call {tname val Args} c args.
Arguments api_target {tname val Args} T c.
Arguments api_store {tname val Args} T c w.

Section interface.
Context {tname val Args R : Type} `{!CxxTypes tname val Args R}.

(** The store a computation leaves, whether it returned or threw. *)
Definition final {A} (o : outcome tname val A) : option (state tname val) :=
  match o with
  | Val _ s => Some s
  | Exn _ s => Some s
  | Undef => None
  end.

(** A member function is called on an object, and its reference parameters
    are bound to objects; a constructor checks for itself that its storage is
    free. *)
Definition live (s : state tname val) (c : cid) : bool :=
  bool_decide (is_Some (objs s !! c)).

Definition step_api (a : api tname val Args) (s : state tname val) :
    option (state tname val) :=
  match a with
  | api_default c => final (function_default c s)
  | api_value T c v => final (function_value T c v s)
  | api_copy c other =>
      if live s other then final (function_copy c other s) else None
  | api_move c other =>
      if live s other then final (function_move c other s) else None
  | api_destructor c =>
      if live s c then final (destructor c s) else None
  | api_assign_copy this rhs =>
      if live s this && live s rhs
      then final (operator_assign_copy this rhs s) else None
  | api_assign_move this rhs =>
      if live s this && live s rhs
      then final (operator_assign_move this rhs s) else None
  | api_bool c =>
      if live s c then final (operator_bool c s) else None
  | api_call c args =>
      if live s c then final (operator_call c args s) else None
  | api_target T c =>
      if live s c then final (target T c s) else None
  | api_store T c w =>
      if live s c then final ((p ← target T c; store p w) s) else None
  end.

(** The stores a program reaches from one without containers. *)
Inductive reachable : state tname val → Prop :=
  | reachable_init cap : reachable (mk_state ∅ ∅ cap [])
  | reachable_step a s s' :
      reachable s → step_api a s = Some s' → reachable s'.

(** The invariant of the store: every live container is consistent, no two
    containers own the same cell, and every cell is owned by a container. *)
Definition wf (s : state tname val) : Prop :=
  (∀ c, is_Some (objs s !! c) → consistent s c = true)
  ∧ (∀ c1 c2 a, owned s c1 = Some a → owned s c2 = Some a → c1 = c2)
  ∧ (∀ a, is_Some (heap s !! a) → ∃ c, owned s c = Some a).
End interface.

(** ** A concrete program

    Callables of signature [int(int)] on an LP64 platform. *)
Module Example.
Inductive tname :=
  | Adder       (* [n](int x) { return x + n; }            *)
  | Scaler      (* [n](int x) { return x * n; }            *)
  | Table       (* a functor with a 64-byte payload        *)
  | Fragile     (* copy constructor throws on negative     *)
  | Legacy      (* move constructor not declared noexcept  *)
  | ThrowDtor.  (* destructor declared noexcept(false)     *)

#[global] Instance tname_eq : EqDecision tname.
Proof. solve_decision. Defined.

#[global] Instance types : CxxTypes tname Z Z Z := {|
  sizeof T := match T with Table => 64 | _ => 4 end;
  alignof T := match T with Table => 8 | _ => 4 end;
  copy_ctor T v :=
    match T with
    | Fragile => if v <? 0 then inl (thrown 7) else inr v
    | _ => inr v
    end;
  move_ctor T :=
    match T with
    | Legacy => move_throwing (λ v, if v <? 0 then inl (thrown 9) else inr (v, 0))
    | _ => move_noexcept (λ v, (v, 0))
    end;
  nothrow_destructor T := match T with ThrowDtor => false | _ => true end;
  call T v x :=
    match T with
    | Adder => inr (x + v)
    | Scaler => inr (x * v)
    | Fragile => if x <? 0 then inl (thrown 3) else inr (x - v)
    | _ => inr v
    end;
  sizeof_ptr := 8;
  alignof_ptr := 8
|}.

(** Run a computation for its final state, from [s]. *)
Definition exec {A} (m : M tname Z A) (s : state tname Z) : state tname Z :=
  match m s with
  | Val _ s' => s'
  | Exn _ s' => s'
  | Undef => s
  end.

(** No container, an empty heap of four cells. *)
Definition s0 : state tname Z := mk_state ∅ ∅ 4 [].

(** [function<int(int)> f;] *)
Definition s_empty : state tname Z := exec (function_default 1%positive) s0.

(** [function<int(int)> f = Adder{5};] *)
Definition s_adder : state tname Z := exec (function_value Adder 1%positive 5) s0.

(** [function<int(int)> f = Table{5};] *)
Definition s_table : state tname Z := exec (function_value Table 1%positive 5) s0.

(** [function<int(int)> f = Table{5}, g = Adder{6};] *)
Definition s_two : state tname Z :=
  exec (function_value Adder 2%positive 6) s_table.

(** [function<int(int)> f = Fragile{-1}, g = Adder{6};] *)
Definition s_fragile : state tname Z :=
  exec (function_value Fragile 1%positive (-1);;
        function_value Adder 2%positive 6) s0.

(** [function<int(int)> f = Table{5}, g;] *)
Definition s_mixed : state tname Z :=
  exec (function_default 2%positive) s_table.

(** [function<int(int)> f = Adder{5}, g;] *)
Definition s_small : state tname Z :=
  exec (function_default 2%positive) s_adder.

(** [{ function<int(int)> f = Table{5}; }] *)
Definition s_gone : state tname Z :=
  exec (destructor 1%positive) s_table.
End Example.

(** * Properties *)

Section properties.
Context {tname val Args R : Type} `{!CxxTypes tname val Args R}.
Implicit Types (s : state tname val) (c this rhs src dst : cid).
Implicit Types (T U : tname) (v w : val) (o : function_obj tname val).

(** ** Reading [held], [owned] and [consistent] back *)

Lemma held_inv s c T v :
  held s c = Some (T, v) →
  ∃ b, objs s !! c = Some (mk_function (func_desc T) b) ∧
       ((is_small T = true ∧ b = slot_obj v) ∨
        (is_small T = false ∧ ∃ a, b = slot_ptr a ∧ heap s !! a = Some v)).
Proof.
  unfold held. destruct (objs s !! c) as [[d b]|]; [|done]. simpl.
  destruct d as [|U]; [done|].
  destruct (is_small U) eqn:HU.
  - destruct b; try done. intros [= -> ->]. eauto 6.
  - destruct b as [| |a]; try done.
    destruct (heap s !! a) eqn:Ha; [|done]. intros [= -> ->]. eauto 8.
Qed.

Lemma held_small s c T v :
  objs s !! c = Some (mk_function (func_desc T) (slot_obj v)) →
  is_small T = true → held s c = Some (T, v).
Proof. intros Hc HT. unfold held. by rewrite Hc; simpl; rewrite HT. Qed.

Lemma held_large s c T v a :
  objs s !! c = Some (mk_function (func_desc T) (slot_ptr a)) →
  heap s !! a = Some v →
  is_small T = false → held s c = Some (T, v).
Proof. intros Hc Ha HT. unfold held. by rewrite Hc; simpl; rewrite HT, Ha. Qed.

Lemma held_empty s c b :
  objs s !! c = Some (mk_function empty_desc b) → held s c = None.
Proof. intros Hc. unfold held. by rewrite Hc. Qed.

Lemma consistent_inv s c :
  consistent s c = true →
  (∃ b, objs s !! c = Some (mk_function empty_desc b)) ∨
  (∃ T v, held s c = Some (T, v)).
Proof.
  unfold consistent. destruct (objs s !! c) as [[d b]|] eqn:Hc; [|done]. simpl.
  destruct d as [|T]; [eauto|].
  intros [[U v] Hh]%bool_decide_eq_true. eauto.
Qed.

Lemma held_consistent s c T v : held s c = Some (T, v) → consistent s c = true.
Proof.
  intros Hh. destruct (held_inv _ _ _ _ Hh) as (b & Hc & _).
  unfold consistent. rewrite Hc. simpl. apply bool_decide_eq_true. eauto.
Qed.

Lemma small_noexcept T :
  is_small T = true → ∃ f, move_ctor T = move_noexcept f.
Proof.
  unfold is_small, is_nothrow_move_constructible, nothrow_move_ctor.
  destruct (move_ctor T) as [f|f]; [eauto|].
  rewrite andb_false_r. done.
Qed.

Lemma small_move_construct T v :
  is_small T = true → ∃ v' r, move_construct T v = inr (v', r).
Proof.
  intros [f Hf]%small_noexcept. unfold move_construct. rewrite Hf.
  destruct (f v) as [v' r]. eauto.
Qed.

Lemma state_eta s : mk_state (objs s) (heap s) (heap_cap s) (trace s) = s.
Proof. by destruct s. Qed.

(** ** Symbolic execution *)

Ltac unfold_ops :=
  unfold operator_assign_copy, swap, operator_assign_move, temporary,
    deref_target, operator_call, operator_bool, target, destructor,
    function_default, function_copy, function_move, function_value,
    constructor, begin_lifetime, on_unwind, end_lifetime,
    descriptor_at, result, empty, get_pointer, new_expr, delete_expr,
    destructor_call, operator_new, operator_delete, load, store,
    get_desc, get_buf, set_desc, set_buf, get_obj, log, throw, undef,
    get_func_descriptor, get_empty_func_descriptor,
    set_objs, set_heap, bind, ret in *.

Ltac step :=
  match goal with
  | H : objs ?s !! ?c = _ |- context [objs ?s !! ?c] => rewrite H
  | H : heap ?s !! ?a = _ |- context [heap ?s !! ?a] => rewrite H
  | H : is_small ?T = _ |- context [is_small ?T] => rewrite H
  | H : move_construct ?T ?v = _ |- context [move_construct ?T ?v] => rewrite H
  | H : copy_ctor ?T ?v = _ |- context [copy_ctor ?T ?v] => rewrite H
  | H : call ?T ?v ?a = _ |- context [call ?T ?v ?a] => rewrite H
  | |- context [<[?c := _]> _ !! ?c] => rewrite lookup_insert_eq
  | |- context [<[?c := _]> _ !! ?d] => rewrite (lookup_insert_ne _ c d) by congruence
  | |- context [delete ?c _ !! ?c] => rewrite lookup_delete_eq
  | |- context [delete ?c _ !! ?d] => rewrite (lookup_delete_ne _ c d) by congruence
  | |- context [decide (?x = ?x)] => rewrite (decide_True (P := x = x)) by reflexivity
  | |- context [decide (?x = ?y)] => rewrite (decide_False (P := x = y)) by congruence
  | H : (?a < ?b)%nat |- context [decide (?a < ?b)%nat] =>
      rewrite (decide_True (P := (a < b)%nat)) by exact H
  | |- context [bool_decide (?x ≠ ?x)] => rewrite (bool_decide_eq_false_2 (x ≠ x)) by auto
  | |- context [bool_decide (?x ≠ ?y)] => rewrite (bool_decide_eq_true_2 (x ≠ y)) by congruence
  end.

Ltac reduce :=
  cbn [objs heap heap_cap trace desc buf copy move destroy invoke
       Bool.eqb negb fmap option_fmap option_map].

Ltac run := unfold_ops; repeat (reduce; step); reduce.

(** Running a sequence one computation at a time. *)
Lemma run_bind {A B} (m : M tname val A) (k : A → M tname val B) s a s1 :
  m s = Val a s1 → bind m k s = k a s1.
Proof. unfold bind. by intros ->. Qed.

Lemma bind_assoc {A B C} (m : M tname val A) (k1 : A → M tname val B)
    (k2 : B → M tname val C) s :
  bind (bind m k1) k2 s = bind m (λ x, bind (k1 x) k2) s.
Proof. unfold bind. by destruct (m s). Qed.

(** A fresh address is not in use. *)
Lemma fresh_dom_None {A} (m : gmap positive A) : m !! fresh (dom m) = None.
Proof. apply not_elem_of_dom, is_fresh. Qed.

(** Name the addresses of temporaries and record that they are free. *)
Ltac note_temporaries :=
  repeat match goal with
  | |- context [fresh (dom ?m)] =>
      let t := fresh "tmp" in
      let Ht := fresh "Htmp" in
      pose proof (fresh_dom_None m) as Ht;
      generalize dependent (fresh (dom m)); intros t Ht;
      repeat match type of Ht with
             | <[_ := _]> _ !! _ = None =>
                 let Hk := fresh "Hk" in
                 apply lookup_insert_None in Ht as [Ht Hk]
             end
  end.

(** Run the computation [op] at the head of the sequence. *)
Tactic Notation "stage" uconstr(op) :=
  rewrite ?bind_assoc;
  erewrite (run_bind op); [|run; reflexivity]; cbv beta; reduce;
  note_temporaries.

(** Look [c] up in a store from which temporaries were deleted. *)
Ltac frame c :=
  reduce; repeat (step; reduce);
  lazymatch goal with
  | |- context [delete ?t _ !! c] =>
      destruct (decide (c = t)) as [->|?];
      [rewrite lookup_delete_eq; done
      |rewrite (lookup_delete_ne _ t c) by congruence; frame c]
  | _ => try done
  end.

(** ** The small-type predicate *)

(** C7. [is_small<T>] holds exactly when the size of [T] fits a pointer,
    the alignment of [storage_t] is a multiple of that of [T], the move
    constructor of [T] is declared [noexcept] and so is its destructor: a
    non-throwing move constructor alone does not make
    [std::is_nothrow_move_constructible_v<T>] true.  The predicate is a
    function of these four facts about [T] and of nothing else, and every
    operation that touches a [T] goes by it.  The converting constructor
    returns with the object in the slot when it holds, and with the slot
    pointing at a fresh heap cell that has the object when it does not;
    [get_pointer] finds the object there; the [copy], [move], [destroy] and
    [invoke] of [T]'s record return from a slot laid out this way and leave
    their destination laid out this way.  A slot laid out the other way is
    not something [invoke] or [destroy] can work on. *)
Theorem is_small_spec T :
  (is_small T = true ↔
     sizeof T ≤ sizeof_ptr ∧ alignof_storage_t `mod` alignof T = 0 ∧
     nothrow_move_ctor T = true ∧ nothrow_destructor T = true)
  ∧ (∀ U, sizeof U = sizeof T → alignof U = alignof T →
          nothrow_move_ctor U = nothrow_move_ctor T →
          nothrow_destructor U = nothrow_destructor T →
          is_small U = is_small T)
  ∧ (∀ c v v' r s,
       objs s !! c = None → move_construct T v = inr (v', r) →
       (is_small T = false → (size (heap s) < heap_cap s)%nat) →
       ∃ s', function_value T c v s = Val () s' ∧
         if is_small T
         then objs s' !! c = Some (mk_function (get_func_descriptor T) (slot_obj v'))
              ∧ heap s' = heap s
         else ∃ a, heap s !! a = None
              ∧ objs s' !! c = Some (mk_function (get_func_descriptor T) (slot_ptr a))
              ∧ heap s' = <[a := v']> (heap s))
  ∧ (∀ c s v, held s c = Some (T, v) →
       ∃ p, get_pointer T c s = Val p s ∧ load p s = Val v s ∧
         if is_small T then p = buf_ptr c
         else ∃ a, p = heap_ptr a ∧ buf <$> objs s !! c = Some (slot_ptr a))
  ∧ (∀ src dst s v v1,
       src ≠ dst → held s src = Some (T, v) → is_Some (objs s !! dst) →
       copy_ctor T v = inr v1 →
       (is_small T = false → (size (heap s) < heap_cap s)%nat) →
       ∃ s', copy (result T) src dst s = Val () s' ∧
         if is_small T
         then buf <$> objs s' !! dst = Some (slot_obj v1) ∧ heap s' = heap s
         else ∃ a, heap s !! a = None
              ∧ buf <$> objs s' !! dst = Some (slot_ptr a)
              ∧ heap s' = <[a := v1]> (heap s))
  ∧ (∀ src dst s v,
       src ≠ dst → held s src = Some (T, v) → is_Some (objs s !! dst) →
       ∃ s', move (result T) src dst s = Val () s' ∧ heap s' = heap s ∧
         if is_small T
         then ∃ v' r, move_construct T v = inr (v', r)
              ∧ buf <$> objs s' !! dst = Some (slot_obj v')
              ∧ buf <$> objs s' !! src = Some slot_uninit
         else ∃ a, buf <$> objs s !! src = Some (slot_ptr a)
              ∧ buf <$> objs s' !! dst = Some (slot_ptr a))
  ∧ (∀ src s v, held s src = Some (T, v) →
       ∃ s', destroy (result T) src s = Val () s' ∧
         if is_small T
         then buf <$> objs s' !! src = Some slot_uninit ∧ heap s' = heap s
         else ∃ a, buf <$> objs s !! src = Some (slot_ptr a)
              ∧ objs s' = objs s ∧ heap s' = delete a (heap s))
  ∧ (∀ src args s v, held s src = Some (T, v) →
       invoke (result T) src args s =
         match call T v args with
         | inr r => Val r s
         | inl e => Exn e s
         end)
  ∧ (∀ c d args s,
       (if is_small T then ∃ a, objs s !! c = Some (mk_function d (slot_ptr a))
        else ∃ v, objs s !! c = Some (mk_function d (slot_obj v))) →
       invoke (result T) c args s = Undef ∧ destroy (result T) c s = Undef).
Proof.
  repeat match goal with |- _ ∧ _ => split end.
  - unfold is_small, is_nothrow_move_constructible.
    rewrite !andb_true_iff, Z.leb_le, Z.eqb_eq. tauto.
  - intros U Hs Ha Hn Hd. unfold is_small, is_nothrow_move_constructible.
    by rewrite Hs, Ha, Hn, Hd.
  - intros c v v' r s Hc Hv Hroom.
    destruct (is_small T) eqn:HT.
    + eexists. split; [run; reflexivity|]. run. done.
    + specialize (Hroom eq_refl).
      pose proof (fresh_dom_None (heap s)) as Hfresh.
      eexists. split; [run; reflexivity|].
      exists (fresh (dom (heap s))). run. done.
  - intros c s v (b & Hc & [[HT ->]|[HT (a & -> & Ha)]])%held_inv; rewrite HT.
    + exists (buf_ptr c). run. done.
    + exists (heap_ptr a). run. eauto.
  - intros src dst s v v1 Hne Hh [od Hdst] Hcopy Hroom.
    destruct (held_inv _ _ _ _ Hh) as (b & Hc & [[HT ->]|[HT (a & -> & Ha)]]);
      rewrite HT.
    + eexists. split; [run; reflexivity|]. run. done.
    + specialize (Hroom HT).
      pose proof (fresh_dom_None (heap s)) as Hfresh.
      eexists. split; [run; reflexivity|].
      exists (fresh (dom (heap s))). run. done.
  - intros src dst s v Hne Hh [od Hdst].
    destruct (held_inv _ _ _ _ Hh) as (b & Hc & [[HT ->]|[HT (a & -> & Ha)]]);
      rewrite HT.
    + destruct (small_move_construct T v HT) as (v' & r & Hv).
      eexists. split; [run; reflexivity|]. run. split; [done|].
      exists v', r. done.
    + eexists. split; [run; reflexivity|]. run. split; [done|].
      exists a. done.
  - intros src s v Hh.
    destruct (held_inv _ _ _ _ Hh) as (b & Hc & [[HT ->]|[HT (a & -> & Ha)]]);
      rewrite HT.
    + eexists. split; [run; reflexivity|]. run. done.
    + eexists. split; [run; reflexivity|]. run. exists a. done.
  - intros src args s v Hh.
    destruct (held_inv _ _ _ _ Hh) as (b & Hc & [[HT ->]|[HT (a & -> & Ha)]]).
    + run. by destruct (call T v args).
    + run. by destruct (call T v args).
  - intros c d args s H.
    destruct (is_small T) eqn:HT; destruct H as [x Hc]; split; by run.
Qed.

(** ** Construction from a value *)

(** The state a successful [function(T val)] leaves. *)
Lemma function_value_inv T c v s s' :
  function_value T c v s = Val () s' →
  objs s !! c = None ∧
  ∃ v' r, move_construct T v = inr (v', r) ∧
    if is_small T then
      s' = mk_state (<[c := mk_function (func_desc T) (slot_obj v')]> (objs s))
              (heap s) (heap_cap s) (trace s ++ [ev_move T v])
    else
      let a := fresh (dom (heap s)) in
      (size (heap s) < heap_cap s)%nat ∧
      s' = mk_state (<[c := mk_function (func_desc T) (slot_ptr a)]> (objs s))
              (<[a := v']> (heap s)) (heap_cap s)
              (trace s ++ [ev_new a; ev_move T v]).
Proof.
  unfold_ops. destruct (objs s !! c) eqn:Hc; [done|].
  intros Hrun. split; [done|]. revert Hrun.
  destruct (is_small T) eqn:HT; simpl.
  - destruct (move_construct T v) as [e|[v' r]]; simpl; [done|].
    repeat step. simpl. intros [= <-]. exists v', r. split; [done|].
    by rewrite insert_insert_eq.
  - destruct (decide _); simpl; [|done].
    destruct (move_construct T v) as [e|[v' r]]; simpl; [done|].
    repeat step. simpl. intros [= <-]. exists v', r. split; [done|].
    split; [done|]. by rewrite insert_insert_eq, <- app_assoc.
Qed.

(** [function(T val)] returns whenever the storage is free, the move
    constructor returns and, for a type stored indirectly, the allocator
    has a cell. *)
Lemma function_value_returns T c v v' r s :
  objs s !! c = None →
  move_construct T v = inr (v', r) →
  (is_small T = false → (size (heap s) < heap_cap s)%nat) →
  ∃ s', function_value T c v s = Val () s'.
Proof.
  intros Hc Hm Hroom.
  destruct (is_small T) eqn:HT; [|specialize (Hroom eq_refl)]; run; eauto.
Qed.

(** A container constructed from a value holds what the move constructor
    made of it. *)
Lemma function_value_held T c v s s' :
  function_value T c v s = Val () s' →
  ∃ v' r, move_construct T v = inr (v', r) ∧ held s' c = Some (T, v').
Proof.
  intros (Hc & v' & r & Hm & Hs')%function_value_inv.
  exists v', r. split; [done|].
  destruct (is_small T) eqn:HT; [|destruct Hs' as [_ Hs']]; subst s';
    unfold held; by run.
Qed.

(** C10. A container constructed from a value of any type [T] is bound to
    the record of [T], which is not the empty record, so its boolean
    conversion is [true]. *)
Theorem function_value_nonempty T c v s s' :
  function_value T c v s = Val () s' →
  get_func_descriptor T ≠ get_empty_func_descriptor ∧
  desc <$> objs s' !! c = Some (get_func_descriptor T) ∧
  operator_bool c s' = Val true s'.
Proof.
  intros (Hc & v' & r & Hm & Hs')%function_value_inv.
  split; [done|].
  destruct (is_small T); [|destruct Hs' as [_ Hs']]; subst s'; run; done.
Qed.

(** C4. Round trip: after [function c(v)] the pointer [c.target<T>()]
    leads to [v], whether [T] is stored in place or in a heap cell.  The
    stored object is the one [T]'s move constructor made of [v]; it equals
    [v] for a move constructor that hands its argument's value on. *)
Theorem target_function_value T c v r s :
  objs s !! c = None →
  move_construct T v = inr (v, r) →
  (is_small T = false → (size (heap s) < heap_cap s)%nat) →
  ∃ s' p, function_value T c v s = Val () s' ∧
          target T c s' = Val p s' ∧ p ≠ nullptr ∧
          p = (if is_small T then buf_ptr c else heap_ptr (fresh (dom (heap s)))) ∧
          load p s' = Val v s' ∧
          deref_target T c s' = Val v s'.
Proof.
  intros Hc Hm Hroom.
  destruct (function_value_returns T c v v r s Hc Hm Hroom) as [s' Hs'].
  exists s'.
  destruct (function_value_inv _ _ _ _ _ Hs') as (_ & v' & r' & Hm' & Hst).
  rewrite Hm in Hm'. injection Hm' as <- <-.
  destruct (is_small T) eqn:HT.
  - exists (buf_ptr c). subst s'. split; [done|]. clear Hs'. run. done.
  - exists (heap_ptr (fresh (dom (heap s)))). destruct Hst as [_ ->].
    split; [done|]. clear Hs'. run. done.
Qed.

(** ** Invocation *)

(** C1. Calling an empty container throws [bad_function_call], whatever
    the slot and the heap contain, uninitialised storage included: the slot
    is not looked at.  Calling a container that holds [v] of type [T]
    behaves as [v(args...)] does: it returns what the call returns and
    throws what the call throws, and the store is as before. *)
Theorem operator_call_spec s c (args : Args) :
  (∀ b, objs s !! c = Some (mk_function get_empty_func_descriptor b) →
        operator_call c args s = Exn bad_function_call s)
  ∧ (∀ T v, held s c = Some (T, v) →
        operator_call c args s =
          match call T v args with
          | inr r => Val r s
          | inl e => Exn e s
          end).
Proof.
  split.
  - intros b Hc. run. done.
  - intros T v (b & Hc & [[HT ->]|(HT & a & -> & Ha)])%held_inv;
      run; by destruct (call T v args).
Qed.

(** ** Introspection *)

(** C5. On a consistent container [target<T>()] returns, without
    changing the store, a pointer that is non-null exactly when the
    container is bound to the record of [T]; the pointer then leads to the
    held value.  For an empty container and for one that holds another type
    [U], whatever the layout of [U], it is null. *)
Theorem target_spec s c T :
  consistent s c = true →
  ∃ p, target T c s = Val p s
    ∧ (p ≠ nullptr ↔ desc <$> objs s !! c = Some (get_func_descriptor T))
    ∧ (p ≠ nullptr → ∃ v, held s c = Some (T, v) ∧ load p s = Val v s)
    ∧ (held s c = None → p = nullptr)
    ∧ (∀ U u, held s c = Some (U, u) → U ≠ T → p = nullptr).
Proof.
  intros [[b Hc]|(U & u & Hh)]%consistent_inv.
  - exists nullptr. rewrite (held_empty _ _ _ Hc). run.
    split; [done|]. split; [split; [done|by intros [=]]|]. done.
  - destruct (held_inv _ _ _ _ Hh) as (b & Hc & Hb). rewrite Hh.
    destruct (decide (U = T)) as [->|Hne].
    + destruct Hb as [[HT ->]|(HT & a & -> & Ha)].
      * exists (buf_ptr c). run. split; [done|]. split; [done|].
        split; [eauto|]. split; [done|]. by intros U' u' [= <- _] ?.
      * exists (heap_ptr a). run. split; [done|]. split; [done|].
        split; [eauto|]. split; [done|]. by intros U' u' [= <- _] ?.
    + exists nullptr. run. split; [done|].
      split; [split; [done|intros [=]; congruence]|]. done.
Qed.

(** ** Default construction *)

(** C8. [function()] on free storage returns a container bound to the
    empty record: its boolean conversion is [false] and [target<T>()] is
    null for every [T].  It neither allocates nor calls anything of a stored
    type, and destroying the container again gives the store back as it
    was. *)
Theorem function_default_spec s c :
  objs s !! c = None →
  ∃ s', function_default c s = Val () s'
    ∧ operator_bool c s' = Val false s'
    ∧ (∀ T, target T c s' = Val nullptr s')
    ∧ held s' c = None
    ∧ heap s' = heap s ∧ trace s' = trace s
    ∧ destructor c s' = Val () s.
Proof.
  intros Hc. eexists. split; [run; reflexivity|].
  split; [by run|]. split; [intros T; by run|].
  split; [unfold held; simpl; by rewrite lookup_insert_eq|].
  split; [done|]. split; [done|].
  run. rewrite delete_insert_eq, delete_id by done. by rewrite state_eta.
Qed.

(** ** Move construction *)

Lemma fresh_heap_ne s a v : heap s !! a = Some v → fresh (dom (heap s)) ≠ a.
Proof. intros Ha Heq. rewrite <- Heq, fresh_dom_None in Ha. done. Qed.

(** C2. [function c2(std::move(c1))] for a [c1] that holds [v] of type
    [T] returns; afterwards [c1] is bound to the empty record and converts
    to [false], and [c2] is bound to the record of [T] and holds the object
    the move made: the very object [v] for a [T] stored indirectly, the
    result of [T]'s move constructor for a [T] stored in place, which is
    [v] when that constructor hands its argument's value on.  Nothing is
    allocated or freed. *)
Theorem function_move_spec s c1 c2 T v :
  held s c1 = Some (T, v) →
  objs s !! c2 = None →
  ∃ s' v', function_move c2 c1 s = Val () s'
    ∧ operator_bool c1 s' = Val false s'
    ∧ desc <$> objs s' !! c1 = Some get_empty_func_descriptor
    ∧ held s' c1 = None
    ∧ held s' c2 = Some (T, v')
    ∧ (is_small T = false → v' = v)
    ∧ (∀ r, move_construct T v = inr (v, r) → v' = v)
    ∧ heap s' = heap s.
Proof.
  intros (b & Hc1 & [[HT ->]|(HT & a & -> & Ha)])%held_inv Hc2.
  - destruct (small_move_construct T v HT) as (v' & r & Hm).
    eexists _, v'. split; [run; reflexivity|].
    split; [by run|]. split; [by run|].
    split; [unfold held; by run|]. split; [unfold held; by run|].
    split; [congruence|]. split; [|done].
    intros r' Hm'. congruence.
  - eexists _, v. split; [run; reflexivity|].
    split; [by run|]. split; [by run|].
    split; [unfold held; by run|]. split; [unfold held; by run|]. done.
Qed.

(** ** Copy construction *)

(** C9. [function c2(c1)] for a [c1] that holds [v] of type [T], when
    [T]'s copy constructor copies [v] and the allocator has a cell for a
    [T] stored indirectly: both containers hold [v] afterwards, their
    [target<T>()] pointers differ, and storing any [w] through that of [c2]
    leaves [*c1.target<T>()] at [v] while [*c2.target<T>()] reads [w]. *)
Theorem function_copy_independent s c1 c2 T v :
  held s c1 = Some (T, v) →
  objs s !! c2 = None →
  copy_ctor T v = inr v →
  (is_small T = false → (size (heap s) < heap_cap s)%nat) →
  ∃ s' p1 p2, function_copy c2 c1 s = Val () s'
    ∧ held s' c1 = Some (T, v) ∧ held s' c2 = Some (T, v)
    ∧ target T c1 s' = Val p1 s' ∧ target T c2 s' = Val p2 s'
    ∧ p1 ≠ nullptr ∧ p2 ≠ nullptr ∧ p1 ≠ p2
    ∧ ∀ w, ∃ s'', store p2 w s' = Val () s''
        ∧ deref_target T c1 s'' = Val v s''
        ∧ deref_target T c2 s'' = Val w s''.
Proof.
  intros (b & Hc1 & [[HT ->]|(HT & a & -> & Ha)])%held_inv Hc2 Hcopy Hroom.
  - assert (c2 ≠ c1) by congruence.
    eexists _, (buf_ptr c1), (buf_ptr c2). split; [run; reflexivity|].
    split; [unfold held; by run|]. split; [unfold held; by run|].
    split; [by run|]. split; [by run|].
    split; [done|]. split; [done|]. split; [congruence|].
    intros w. eexists. split; [run; reflexivity|]. split; by run.
  - assert (c2 ≠ c1) by congruence.
    pose proof (fresh_heap_ne _ _ _ Ha) as Hfresh.
    specialize (Hroom HT).
    eexists _, (heap_ptr a), (heap_ptr (fresh (dom (heap s)))).
    split; [run; reflexivity|].
    split; [unfold held; by run|]. split; [unfold held; by run|].
    split; [by run|]. split; [by run|].
    split; [done|]. split; [done|]. split; [congruence|].
    intros w. eexists. split; [run; reflexivity|]. split; by run.
Qed.

(** ** Move assignment *)

Ltac settle :=
  unfold destroy_trace, move_trace, held, owned; run;
  repeat split; try done;
  try (rewrite <- ?app_assoc; simpl; rewrite ?app_nil_r; done).

(** Move assignment between containers of the store.
    [a = std::move(b)] for distinct consistent containers that do
    not share a heap cell returns.  It destroys what [a] held (the destructor
    runs, an indirect payload is freed) before it moves what [b] held; [a]
    ends up bound to the record [b] was bound to and holds what [b] held,
    and [b] ends up bound to the empty record.  [a = std::move(a)] and
    [a = a] return at once and leave the store untouched.  The order matters:
    a source whose lifetime the payload of [a] controls would be gone by the
    time it is read; such a source is not a container of the store. *)
Lemma operator_assign_move_spec s this rhs :
  operator_assign_move this this s = Val () s
  ∧ operator_assign_copy this this s = Val () s
  ∧ (this ≠ rhs →
     consistent s this = true → consistent s rhs = true →
     (∀ a, owned s this = Some a → owned s rhs ≠ Some a) →
     ∃ s', operator_assign_move this rhs s = Val () s'
       ∧ desc <$> objs s' !! this = desc <$> objs s !! rhs
       ∧ desc <$> objs s' !! rhs = Some get_empty_func_descriptor
       ∧ held s' rhs = None
       ∧ (∀ T v, held s rhs = Some (T, v) →
            ∃ v', held s' this = Some (T, v')
              ∧ (is_small T = false → v' = v)
              ∧ (∀ r, move_construct T v = inr (v, r) → v' = v))
       ∧ (held s rhs = None → held s' this = None)
       ∧ (∀ a, owned s this = Some a → heap s' !! a = None)
       ∧ trace s' = trace s ++ destroy_trace s this ++ move_trace s rhs).
Proof.
  split; [|split].
  - unfold operator_assign_move. by rewrite decide_True.
  - unfold operator_assign_copy. by rewrite decide_True.
  - intros Hne Hct Hcr Halias.
    assert (Hdisj : ∀ a a' U T,
               objs s !! this = Some (mk_function (func_desc U) (slot_ptr a)) →
               is_small U = false →
               objs s !! rhs = Some (mk_function (func_desc T) (slot_ptr a')) →
               is_small T = false → a' ≠ a).
    { intros a a' U T Ht HU Hr HT ->. apply (Halias a); unfold owned; by run. }
    clear Halias.
    destruct (consistent_inv _ _ Hct) as [[bt Ht]|(U & u & Hu)];
      destruct (consistent_inv _ _ Hcr) as [[br Hr]|(T & v & Hv)]; clear Hct Hcr.
    + eexists. split; [run; reflexivity|]. settle.
    + destruct (held_inv _ _ _ _ Hv) as (b & Hr & [[HT ->]|(HT & a' & -> & Ha')]).
      * destruct (small_move_construct T v HT) as (v' & r & Hm).
        eexists. split; [run; reflexivity|]. settle.
        intros T' w [= <- <-]. exists v'. repeat split; congruence.
      * eexists. split; [run; reflexivity|]. settle.
        intros T' w [= <- <-]. exists v. repeat split; congruence.
    + destruct (held_inv _ _ _ _ Hu) as (b & Ht & [[HU ->]|(HU & a & -> & Ha)]).
      * eexists. split; [run; reflexivity|]. settle.
      * eexists. split; [run; reflexivity|]. settle.
        intros a0 [= <-]. apply lookup_delete_eq.
    + destruct (held_inv _ _ _ _ Hu) as (b & Ht & [[HU ->]|(HU & a & -> & Ha)]);
        destruct (held_inv _ _ _ _ Hv) as (b' & Hr & [[HT ->]|(HT & a' & -> & Ha')]).
      * destruct (small_move_construct T v HT) as (v' & r & Hm).
        eexists. split; [run; reflexivity|]. settle.
        intros T' w [= <- <-]. exists v'. repeat split; congruence.
      * eexists. split; [run; reflexivity|]. settle.
        intros T' w [= <- <-]. exists v. repeat split; congruence.
      * destruct (small_move_construct T v HT) as (v' & r & Hm).
        eexists. split; [run; reflexivity|]. settle.
        -- intros T' w [= <- <-]. exists v'. repeat split; congruence.
        -- intros a0 [= <-]. apply lookup_delete_eq.
      * pose proof (Hdisj _ _ _ _ Ht HU Hr HT) as Hd.
        eexists. split; [run; reflexivity|]. settle.
        -- intros T' w [= <- <-]. exists v. repeat split; congruence.
        -- intros a0 [= <-]. apply lookup_delete_eq.
Qed.

(** ** Copy assignment *)

(** A copy construction that throws leaves the containers and the heap as
    they were. *)
Lemma function_copy_throws s c rhs e s1 :
  function_copy c rhs s = Exn e s1 →
  objs s1 = objs s ∧ heap s1 = heap s.
Proof.
  unfold_ops.
  destruct (objs s !! rhs) as [[d b]|] eqn:Hr; simpl; [|done].
  destruct (objs s !! c) eqn:Hc; simpl; [done|].
  assert (c ≠ rhs) by congruence.
  repeat (step; simpl).
  destruct d as [|T]; simpl; [done|].
  destruct (is_small T) eqn:HT; simpl.
  - repeat (step; simpl).
    destruct b as [|v|a]; simpl; try done.
    destruct (copy_ctor T v) as [e'|v']; simpl.
    + intros [= <- <-]. simpl. by rewrite delete_insert_eq, delete_id.
    + repeat (step; simpl). done.
  - destruct (decide _); simpl.
    + repeat (step; simpl).
      destruct b as [|v|a]; simpl; try done.
      destruct (heap s !! a) as [v|]; simpl; [|done].
      destruct (copy_ctor T v) as [e'|v']; simpl.
      * intros [= <- <-]. simpl. by rewrite delete_insert_eq, delete_id.
      * repeat (step; simpl). done.
    + intros [= <- <-]. simpl. by rewrite delete_insert_eq, delete_id.
Qed.

Ltac copy_assign_case :=
  unfold operator_assign_copy; rewrite decide_False by done;
  stage temporary;
  stage (function_copy _ _);
  unfold swap;
  stage temporary;
  stage (function_move _ _);
  stage (operator_assign_move _ _);
  stage (operator_assign_move _ _);
  stage (destructor _);
  eexists; split; [run; reflexivity|];
  split; [unfold held; by run|]; split; [unfold held; by run|];
  let c := fresh "c" in intros c ?; frame c.

(** A copy assignment whose copy construction returns. *)
Lemma operator_assign_copy_returns s this rhs T v r :
  this ≠ rhs →
  consistent s this = true →
  held s rhs = Some (T, v) →
  (∀ a, owned s this = Some a → owned s rhs ≠ Some a) →
  copy_ctor T v = inr v →
  (is_small T = true → move_construct T v = inr (v, r)) →
  (is_small T = false → (size (heap s) < heap_cap s)%nat) →
  ∃ s', operator_assign_copy this rhs s = Val () s'
    ∧ held s' this = Some (T, v)
    ∧ held s' rhs = Some (T, v)
    ∧ (∀ c, c ≠ this → objs s' !! c = objs s !! c).
Proof.
  intros Hne Hct Hv Halias Hcopy Hmove Hroom.
  assert (Hdisj : ∀ a a' U,
             objs s !! this = Some (mk_function (func_desc U) (slot_ptr a)) →
             is_small U = false →
             objs s !! rhs = Some (mk_function (func_desc T) (slot_ptr a')) →
             is_small T = false → a' ≠ a).
  { intros a a' U Ht HU Hr HT ->. apply (Halias a); unfold owned; by run. }
  clear Halias.
  destruct (held_inv _ _ _ _ Hv) as (b & Hr & [[HT ->]|(HT & a' & -> & Ha')]);
    [specialize (Hmove HT); clear Hroom | specialize (Hroom HT); clear Hmove];
    (destruct (consistent_inv _ _ Hct) as [[bt Ht]|(U & u & Hu)];
     [|destruct (held_inv _ _ _ _ Hu) as (b' & Ht & [[HU ->]|(HU & a & -> & Ha)])]).
  - copy_assign_case.
  - destruct (small_move_construct U u HU) as (u' & ru & Hmu).
    copy_assign_case.
  - copy_assign_case.
  - copy_assign_case.
  - destruct (small_move_construct U u HU) as (u' & ru & Hmu).
    copy_assign_case.
  - pose proof (Hdisj _ _ _ Ht HU Hr HT).
    copy_assign_case.
Qed.
(** C3. [a = b] copy-constructs a temporary from [b], swaps it with [a]
    and destroys it.  Should the copy construction throw, the assignment
    throws the same exception and the containers and the heap, the target
    with what it holds among them, are as before.  When it returns, what
    follows is the swap and the destruction of the temporary, after which
    [a] holds a copy of what [b] holds, [b] holds what it held and no other
    container has changed.  [a = a] returns at once with the store
    untouched. *)
Theorem operator_assign_copy_strong s this rhs :
  operator_assign_copy this this s = Val () s
  ∧ (this ≠ rhs → ∀ e s1,
       function_copy (fresh (dom (objs s))) rhs s = Exn e s1 →
       operator_assign_copy this rhs s = Exn e s1
       ∧ objs s1 = objs s ∧ heap s1 = heap s
       ∧ held s1 this = held s this
       ∧ consistent s1 this = consistent s this)
  ∧ (this ≠ rhs → ∀ s1,
       function_copy (fresh (dom (objs s))) rhs s = Val () s1 →
       operator_assign_copy this rhs s =
         (swap (fresh (dom (objs s))) this;;
          destructor (fresh (dom (objs s)))) s1)
  ∧ (this ≠ rhs → ∀ T v r,
       consistent s this = true →
       held s rhs = Some (T, v) →
       (∀ a, owned s this = Some a → owned s rhs ≠ Some a) →
       copy_ctor T v = inr v →
       (is_small T = true → move_construct T v = inr (v, r)) →
       (is_small T = false → (size (heap s) < heap_cap s)%nat) →
       ∃ s', operator_assign_copy this rhs s = Val () s'
         ∧ held s' this = Some (T, v)
         ∧ held s' rhs = Some (T, v)
         ∧ (∀ c, c ≠ this → objs s' !! c = objs s !! c)).
Proof.
  split; [|split; [|split]].
  - unfold operator_assign_copy. by rewrite decide_True.
  - intros Hne e s1 Hcopy.
    destruct (function_copy_throws _ _ _ _ _ Hcopy) as [Ho Hh].
    split.
    + unfold operator_assign_copy, temporary, bind.
      rewrite decide_False by done. by rewrite Hcopy.
    + split; [done|]. split; [done|].
      unfold consistent, held. by rewrite Ho, Hh.
  - intros Hne s1 Hcopy.
    unfold operator_assign_copy, temporary, bind.
    rewrite decide_False by done. by rewrite Hcopy.
  - intros Hne T v r. by apply operator_assign_copy_returns.
Qed.

(** * Further properties *)

(** ** Destruction *)

(** What the destructor does. *)
Lemma destructor_effect s c :
  consistent s c = true →
  destructor c s =
    Val () (mk_state (delete c (objs s)) (release (owned s c) (heap s))
              (heap_cap s) (trace s ++ destroy_trace s c)).
Proof.
  intros [[b Hc]|(T & v & Hv)]%consistent_inv.
  - unfold destroy_trace, owned, held. run. by rewrite app_nil_r.
  - destruct (held_inv _ _ _ _ Hv) as (b & Hc & [[HT ->]|(HT & a & -> & Ha)]);
      unfold destroy_trace, owned, held; run.
    + by rewrite delete_insert_eq.
    + by rewrite <- app_assoc.
Qed.

(** [~function()] on a consistent container returns.  The container is
    gone, the cell of an indirectly stored payload is given back and no other
    cell is, no other container changes, and the stored type sees exactly the
    destruction of the payload. *)
Theorem destructor_spec s c :
  consistent s c = true →
  destructor c s =
    Val () (mk_state (delete c (objs s)) (release (owned s c) (heap s))
              (heap_cap s) (trace s ++ destroy_trace s c)).
Proof. apply destructor_effect. Qed.

(** ** Construction from a value, continued *)


(** [function(T val)] that returns has allocated nothing for a type stored
    in place, and exactly one cell, free before, for a type stored
    indirectly. *)
Theorem function_value_allocation T c v s s' :
  function_value T c v s = Val () s' →
  if is_small T then heap s' = heap s
  else ∃ a v', heap s !! a = None ∧ heap s' = <[a := v']> (heap s)
              ∧ owned s' c = Some a
              ∧ size (heap s') = S (size (heap s)).
Proof.
  intros (Hc & v' & r & Hm & Hs')%function_value_inv.
  destruct (is_small T) eqn:HT.
  - by subst s'.
  - destruct Hs' as [_ ->]. exists (fresh (dom (heap s))), v'.
    pose proof (fresh_dom_None (heap s)) as Hfresh.
    split; [done|]. split; [done|].
    split; [unfold owned; by run|].
    simpl. by apply map_size_insert_None.
Qed.

(** ** Empty sources *)

(** Copy-constructing or move-constructing from an empty container gives an
    empty container and leaves the source empty; the heap and the trace are
    untouched: the empty record's [copy] and [move] do nothing. *)
Theorem function_from_empty s c other b :
  objs s !! other = Some (mk_function get_empty_func_descriptor b) →
  objs s !! c = None →
  function_copy c other s =
    Val () (mk_state (<[c := mk_function empty_desc slot_uninit]> (objs s))
              (heap s) (heap_cap s) (trace s))
  ∧ ∃ s', function_move c other s = Val () s'
      ∧ objs s' !! c = Some (mk_function empty_desc slot_uninit)
      ∧ objs s' !! other = Some (mk_function empty_desc b)
      ∧ (∀ c', c' ≠ c → objs s' !! c' = objs s !! c')
      ∧ heap s' = heap s ∧ trace s' = trace s.
Proof.
  intros Ho Hc. assert (c ≠ other) by congruence. split.
  - run. done.
  - eexists. split; [run; reflexivity|]. reduce.
    split; [by repeat step|]. split; [by repeat step|].
    split; [|done]. intros c' Hc'.
    destruct (decide (c' = other)) as [->|]; repeat step; done.
Qed.

(** ** Copy construction, continued *)

(** Copy-constructing from a consistent container onto free storage never
    has undefined behaviour, and it throws only what the copy constructor of
    the held value throws or, for a type stored indirectly, [bad_alloc] when
    the allocator has no cell. *)
Theorem function_copy_failure s c rhs :
  consistent s rhs = true →
  objs s !! c = None →
  function_copy c rhs s ≠ Undef
  ∧ ∀ e s', function_copy c rhs s = Exn e s' →
      ∃ T v, held s rhs = Some (T, v)
        ∧ ((is_small T = false ∧ e = bad_alloc ∧ (heap_cap s ≤ size (heap s))%nat)
           ∨ copy_ctor T v = inl e).
Proof.
  intros Hcons Hc. assert (c ≠ rhs).
  { intros ->. unfold consistent in Hcons. by rewrite Hc in Hcons. }
  destruct (consistent_inv _ _ Hcons) as [[b Hr]|(T & v & Hv)].
  - run. done.
  - destruct (held_inv _ _ _ _ Hv) as (b & Hr & [[HT ->]|(HT & a & -> & Ha)]).
    + run. destruct (copy_ctor T v) as [e'|v'] eqn:Hcopy; run.
      * split; [done|]. intros e s' [= <- _]. exists T, v. eauto.
      * done.
    + unfold_ops. repeat (reduce; step). reduce.
      destruct (decide _) as [Hroom|Hfull]; reduce.
      * repeat (step; reduce).
        destruct (copy_ctor T v) as [e'|v'] eqn:Hcopy; reduce; repeat (step; reduce).
        -- split; [done|]. intros e s' [= <- _]. exists T, v. eauto.
        -- done.
      * split; [done|]. intros e s' [= <- _]. exists T, v.
        split; [done|]. left. split; [done|]. split; [done|lia].
Qed.

(** ** Swap *)

Ltac facts :=
  unfold payload_trace, relocate, release, consistent, destroy_trace,
    move_trace, held, owned;
  run; rewrite ?bool_decide_eq_true_2 by eauto;
  try done;
  try (rewrite <- ?app_assoc; simpl; rewrite ?app_nil_r; done).

Ltac swap_case :=
  unfold swap;
  stage temporary;
  stage (function_move _ _);
  stage (operator_assign_move _ _);
  stage (operator_assign_move _ _);
  eexists; split; [run; reflexivity|];
  repeat (split; [by facts|]);
  let c := fresh "c" in intros c ? ?; frame c.

(** [swap] of two distinct consistent containers returns and exchanges what
    they hold and own: the payload of [other] is relocated once, that of
    [this] twice (through the local [tmp]).  The heap is untouched, [tmp] is
    gone and no other container changes. *)
Theorem swap_spec s this other :
  this ≠ other →
  consistent s this = true → consistent s other = true →
  ∃ s', swap this other s = Val () s'
    ∧ held s' this = relocate (held s other)
    ∧ held s' other = relocate (relocate (held s this))
    ∧ owned s' this = owned s other
    ∧ owned s' other = owned s this
    ∧ consistent s' this = true
    ∧ consistent s' other = true
    ∧ heap s' = heap s
    ∧ (∀ c, c ≠ this → c ≠ other → objs s' !! c = objs s !! c).
Proof.
  intros Hne Hct Hco.
  destruct (consistent_inv _ _ Hct) as [[bt Ht]|(U & u & Hu)];
    [|destruct (held_inv _ _ _ _ Hu) as (b' & Ht & [[HU ->]|(HU & a & -> & Ha)]);
      [destruct (small_move_construct U u HU) as (u1 & ru1 & Hmu1);
       destruct (small_move_construct U u1 HU) as (u2 & ru2 & Hmu2)|]];
    (destruct (consistent_inv _ _ Hco) as [[bo Ho]|(T & v & Hv)];
     [|destruct (held_inv _ _ _ _ Hv) as (b & Ho & [[HT ->]|(HT & a' & -> & Ha')]);
       [destruct (small_move_construct T v HT) as (v1 & rv1 & Hmv1)|]]).
  - swap_case.
  - swap_case.
  - swap_case.
  - swap_case.
  - swap_case.
  - swap_case.
  - swap_case.
  - swap_case.
  - swap_case.
Qed.

(** ** Move assignment, continued *)

(** What a move assignment between distinct containers does. *)
Lemma operator_assign_move_effect s this rhs :
  this ≠ rhs →
  consistent s this = true → consistent s rhs = true →
  (∀ a, owned s this = Some a → owned s rhs ≠ Some a) →
  ∃ s', operator_assign_move this rhs s = Val () s'
    ∧ heap s' = release (owned s this) (heap s)
    ∧ owned s' this = owned s rhs
    ∧ owned s' rhs = None
    ∧ held s' this = relocate (held s rhs)
    ∧ consistent s' this = true
    ∧ consistent s' rhs = true
    ∧ (∀ c, c ≠ this → c ≠ rhs → objs s' !! c = objs s !! c).
Proof.
  intros Hne Hct Hcr Halias.
  assert (Hdisj : ∀ a a' U T,
             objs s !! this = Some (mk_function (func_desc U) (slot_ptr a)) →
             is_small U = false →
             objs s !! rhs = Some (mk_function (func_desc T) (slot_ptr a')) →
             is_small T = false → a' ≠ a).
  { intros a a' U T Ht HU Hr HT ->. apply (Halias a); unfold owned; by run. }
  clear Halias.
  destruct (consistent_inv _ _ Hct) as [[bt Ht]|(U & u & Hu)];
    [|destruct (held_inv _ _ _ _ Hu) as (b' & Ht & [[HU ->]|(HU & a & -> & Ha)])];
    (destruct (consistent_inv _ _ Hcr) as [[br Hr]|(T & v & Hv)];
     [|destruct (held_inv _ _ _ _ Hv) as (b & Hr & [[HT ->]|(HT & a' & -> & Ha')]);
       [destruct (small_move_construct T v HT) as (v1 & rv1 & Hmv1)
       |try pose proof (Hdisj _ _ _ _ Ht HU Hr HT)]]);
    (eexists; split; [run; reflexivity|];
     repeat (split; [by facts|]);
     intros c ? ?; frame c).
Qed.

(** ** Copy assignment, continued *)

(** As [note_temporaries], but the names stand for the addresses: a later
    occurrence of the same fresh address gets the same name. *)
Ltac name_fresh :=
  repeat match goal with
  | t := fresh (dom ?m) |- context [fresh (dom ?m)] =>
      change (fresh (dom m)) with t
  | |- context [fresh (dom ?m)] =>
      let t := fresh "tmp" in
      let Ht := fresh "Htmp" in
      pose proof (fresh_dom_None m) as Ht;
      set (t := fresh (dom m)) in *;
      repeat match type of Ht with
             | <[_ := _]> _ !! _ = None =>
                 let Hk := fresh "Hk" in
                 apply lookup_insert_None in Ht as [Ht Hk]
             end
  end.

Tactic Notation "stage_named" uconstr(op) :=
  rewrite ?bind_assoc;
  erewrite (run_bind op); [|run; reflexivity]; cbv beta; reduce;
  name_fresh.

Ltac copy_assign_effect_case :=
  unfold operator_assign_copy; rewrite decide_False by done;
  name_fresh;
  stage_named temporary;
  stage_named (function_copy _ _);
  unfold swap;
  stage_named temporary;
  stage_named (function_move _ _);
  stage_named (operator_assign_move _ _);
  stage_named (operator_assign_move _ _);
  stage_named (destructor _);
  eexists; split; [run; reflexivity|];
  repeat (split; [by facts|]);
  let c := fresh "c" in intros c ?; frame c.

(** What a copy assignment from a container that holds a value does. *)
Lemma operator_assign_copy_holding s this rhs T v v1 :
  this ≠ rhs →
  consistent s this = true →
  held s rhs = Some (T, v) →
  (∀ a, owned s this = Some a → owned s rhs ≠ Some a) →
  copy_ctor T v = inr v1 →
  (is_small T = false → (size (heap s) < heap_cap s)%nat) →
  ∃ s', operator_assign_copy this rhs s = Val () s'
    ∧ held s' this = relocate (relocate (Some (T, v1)))
    ∧ held s' rhs = Some (T, v)
    ∧ consistent s' this = true
    ∧ owned s' this = (if is_small T then None else Some (fresh (dom (heap s))))
    ∧ heap s' =
        release (owned s this)
          (if is_small T then heap s
           else <[fresh (dom (heap s)) := v1]> (heap s))
    ∧ (∀ c, c ≠ this → objs s' !! c = objs s !! c).
Proof.
  intros Hne Hct Hv Halias Hcopy Hroom.
  assert (Hdisj : ∀ a a' U,
             objs s !! this = Some (mk_function (func_desc U) (slot_ptr a)) →
             is_small U = false →
             objs s !! rhs = Some (mk_function (func_desc T) (slot_ptr a')) →
             is_small T = false → a' ≠ a).
  { intros a a' U Ht HU Hr HT ->. apply (Halias a); unfold owned; by run. }
  clear Halias.
  destruct (held_inv _ _ _ _ Hv) as (b & Hr & [[HT ->]|(HT & a' & -> & Ha')]);
    [clear Hroom;
     destruct (small_move_construct T v1 HT) as (v2 & rv2 & Hmv2);
     destruct (small_move_construct T v2 HT) as (v3 & rv3 & Hmv3)
    |specialize (Hroom HT)];
    (destruct (consistent_inv _ _ Hct) as [[bt Ht]|(U & u & Hu)];
     [|destruct (held_inv _ _ _ _ Hu) as (b' & Ht & [[HU ->]|(HU & a & -> & Ha)]);
       [destruct (small_move_construct U u HU) as (u1 & ru1 & Hmu1)
       |try pose proof (Hdisj _ _ _ Ht HU Hr HT)]]).
  - copy_assign_effect_case.
  - copy_assign_effect_case.
  - copy_assign_effect_case.
  - copy_assign_effect_case.
  - copy_assign_effect_case.
  - copy_assign_effect_case.
Qed.

(** [a = b] for a [b] that holds [v], whatever the constructors of the
    stored types do to values: when the copy constructor returns [v1] (and
    the allocator has a cell for a type stored indirectly) the assignment
    returns, [a] holds [v1] relocated twice by the swap, [b] holds [v]
    still, exactly the cell [a] owned is given back and, for a type stored
    indirectly, exactly one is allocated; the temporaries are gone and no
    other container changes. *)
Theorem operator_assign_copy_effect s this rhs T v v1 :
  this ≠ rhs →
  consistent s this = true →
  held s rhs = Some (T, v) →
  (∀ a, owned s this = Some a → owned s rhs ≠ Some a) →
  copy_ctor T v = inr v1 →
  (is_small T = false → (size (heap s) < heap_cap s)%nat) →
  ∃ s', operator_assign_copy this rhs s = Val () s'
    ∧ held s' this = relocate (relocate (Some (T, v1)))
    ∧ held s' rhs = Some (T, v)
    ∧ consistent s' this = true
    ∧ heap s' =
        release (owned s this)
          (if is_small T then heap s
           else <[fresh (dom (heap s)) := v1]> (heap s))
    ∧ (∀ c, c ≠ this → objs s' !! c = objs s !! c).
Proof.
  intros Hne Hct Hv Halias Hcopy Hroom.
  destruct (operator_assign_copy_holding s this rhs T v v1)
    as (s' & ? & ? & ? & ? & _ & ? & ?); eauto 10.
Qed.

(** What a copy assignment from an empty container does. *)
Lemma operator_assign_copy_empty s this rhs b :
  this ≠ rhs →
  consistent s this = true →
  objs s !! rhs = Some (mk_function get_empty_func_descriptor b) →
  ∃ s', operator_assign_copy this rhs s = Val () s'
    ∧ held s' this = None
    ∧ operator_bool this s' = Val false s'
    ∧ consistent s' this = true
    ∧ owned s' this = None
    ∧ heap s' = release (owned s this) (heap s)
    ∧ trace s' =
        trace s ++ move_trace s this
          ++ payload_trace (relocate (held s this)) (owned s this)
    ∧ (∀ c, c ≠ this → objs s' !! c = objs s !! c).
Proof.
  intros Hne Hct Hr.
  destruct (consistent_inv _ _ Hct) as [[bt Ht]|(U & u & Hu)];
    [|destruct (held_inv _ _ _ _ Hu) as (b' & Ht & [[HU ->]|(HU & a & -> & Ha)]);
      [destruct (small_move_construct U u HU) as (u1 & ru1 & Hmu1)|]].
  - copy_assign_effect_case.
  - copy_assign_effect_case.
  - copy_assign_effect_case.
Qed.

(** [a = b] for an empty [b] returns and leaves [a] empty.  What [a] held
    is destroyed: the stored type sees nothing of [b], then the move of the
    payload of [a] into the temporary of the swap (for a type stored in
    place), then the destructor of the payload there, followed for a type
    stored indirectly by the release of its cell.  The cell [a] owned is
    given back, nothing is allocated, and no other container changes. *)
Theorem operator_assign_copy_from_empty s this rhs b :
  this ≠ rhs →
  consistent s this = true →
  objs s !! rhs = Some (mk_function get_empty_func_descriptor b) →
  ∃ s', operator_assign_copy this rhs s = Val () s'
    ∧ held s' this = None
    ∧ operator_bool this s' = Val false s'
    ∧ consistent s' this = true
    ∧ heap s' = release (owned s this) (heap s)
    ∧ trace s' =
        trace s ++ move_trace s this
          ++ payload_trace (relocate (held s this)) (owned s this)
    ∧ (∀ c, c ≠ this → objs s' !! c = objs s !! c).
Proof.
  intros Hne Hct Hr.
  destruct (operator_assign_copy_empty s this rhs b)
    as (s' & ? & ? & ? & ? & _ & ? & ? & ?); eauto 10.
Qed.

(** ** Pointers and moves *)

(** A pointer obtained from [c1.target<T>()] before [function c2(std::move(c1))]:
    for a type stored indirectly it is what [c2.target<T>()] returns
    afterwards and still leads to the callable; for a type stored in place it
    points into [c1], where no object is left, and [c2.target<T>()] points
    into [c2].  [c1.target<T>()] is null afterwards in both cases. *)
Theorem target_after_move s c1 c2 T v :
  held s c1 = Some (T, v) →
  objs s !! c2 = None →
  ∃ p s', target T c1 s = Val p s
    ∧ function_move c2 c1 s = Val () s'
    ∧ target T c1 s' = Val nullptr s'
    ∧ if is_small T
      then p = buf_ptr c1 ∧ load p s' = Undef
           ∧ target T c2 s' = Val (buf_ptr c2) s'
      else target T c2 s' = Val p s' ∧ load p s' = Val v s'.
Proof.
  intros (b & Hc1 & [[HT ->]|(HT & a & -> & Ha)])%held_inv Hc2;
    assert (c2 ≠ c1) by congruence.
  - destruct (small_move_construct T v HT) as (v' & r & Hm).
    exists (buf_ptr c1). eexists. split; [by run|].
    split; [run; reflexivity|]. rewrite HT. split; [by run|].
    split; [done|]. split; by run.
  - exists (heap_ptr a). eexists. split; [by run|].
    split; [run; reflexivity|]. rewrite HT. split; [by run|].
    split; by run.
Qed.

(** After [function c2(std::move(c1))], calling [c1] throws
    [bad_function_call] and calling [c2] is calling the relocated callable. *)
Theorem call_after_move s c1 c2 T v (args : Args) :
  held s c1 = Some (T, v) →
  objs s !! c2 = None →
  ∃ s' v', function_move c2 c1 s = Val () s'
    ∧ relocate (Some (T, v)) = Some (T, v')
    ∧ operator_call c1 args s' = Exn bad_function_call s'
    ∧ operator_call c2 args s' =
        match call T v' args with
        | inr r => Val r s'
        | inl e => Exn e s'
        end.
Proof.
  intros (b & Hc1 & [[HT ->]|(HT & a & -> & Ha)])%held_inv Hc2;
    assert (c2 ≠ c1) by congruence.
  - destruct (small_move_construct T v HT) as (v' & r & Hm).
    eexists _, v'. split; [run; reflexivity|].
    split; [unfold relocate; by rewrite HT, Hm|]. split; [by run|].
    run. by destruct (call T v' args).
  - eexists _, v. split; [run; reflexivity|].
    split; [unfold relocate; by rewrite HT|]. split; [by run|].
    run. by destruct (call T v args).
Qed.

(** ** Construction and destruction compose *)

(** Destroying a container right after [function(T val)] made it gives the
    containers and the heap back as they were before the construction. *)
Theorem function_value_destructor T c v s s' :
  function_value T c v s = Val () s' →
  ∃ s'', destructor c s' = Val () s''
    ∧ objs s'' = objs s ∧ heap s'' = heap s ∧ heap_cap s'' = heap_cap s.
Proof.
  intros (Hc & v' & r & Hm & Hs')%function_value_inv.
  destruct (is_small T) eqn:HT; [|destruct Hs' as [_ Hs']]; subst s'.
  - eexists. split; [run; reflexivity|]. reduce.
    rewrite !delete_insert_eq, delete_id by done. done.
  - pose proof (fresh_dom_None (heap s)) as Hfresh.
    eexists. split; [run; reflexivity|]. reduce.
    rewrite !delete_insert_eq, !delete_id by done. done.
Qed.

(** Destroying the copy right after [function c2(c1)] made it gives the
    containers and the heap back as they were before the copy. *)
Theorem function_copy_destructor s c1 c2 s' :
  consistent s c1 = true →
  function_copy c2 c1 s = Val () s' →
  ∃ s'', destructor c2 s' = Val () s''
    ∧ objs s'' = objs s ∧ heap s'' = heap s ∧ heap_cap s'' = heap_cap s.
Proof.
  intros Hcons Hrun.
  assert (Hc2 : objs s !! c2 = None).
  { revert Hrun. unfold_ops. destruct (objs s !! c1); [|done]. reduce.
    by destruct (objs s !! c2). }
  assert (c2 ≠ c1).
  { intros ->. unfold consistent in Hcons. by rewrite Hc2 in Hcons. }
  revert Hrun.
  destruct (consistent_inv _ _ Hcons) as [[b Hr]|(T & v & Hv)].
  - run. intros [= <-]. eexists. split; [run; reflexivity|]. reduce.
    rewrite !delete_insert_eq, delete_id by done. done.
  - destruct (held_inv _ _ _ _ Hv) as (b & Hr & [[HT ->]|(HT & a & -> & Ha)]).
    + run. destruct (copy_ctor T v) as [e|v']; run; [done|].
      intros [= <-]. eexists. split; [run; reflexivity|]. reduce.
      rewrite !delete_insert_eq, delete_id by done. done.
    + pose proof (fresh_dom_None (heap s)) as Hfresh.
      unfold_ops. repeat (reduce; step). reduce.
      destruct (decide _); reduce; [|done]. repeat (step; reduce).
      destruct (copy_ctor T v) as [e|v']; reduce; repeat (step; reduce); [done|].
      intros [= <-]. eexists. split; [run; reflexivity|]. reduce.
      rewrite !delete_insert_eq, !delete_id by done. done.
Qed.

(** ** The boolean conversion and [target] *)

(** On a consistent container the boolean conversion is [true] exactly when
    the container holds a callable, which is exactly when [target<T>()] is
    non-null for some [T]. *)
Theorem operator_bool_target s c :
  consistent s c = true →
  ∃ b, operator_bool c s = Val b s
    ∧ (b = true ↔ is_Some (held s c))
    ∧ (b = true ↔ ∃ T p, target T c s = Val p s ∧ p ≠ nullptr).
Proof.
  intros [[b Hc]|(T & v & Hv)]%consistent_inv.
  - exists false. split; [by run|]. rewrite (held_empty _ _ _ Hc).
    split; [split; [done|by intros [? [=]]]|].
    split; [done|]. intros (T & p & Hp & Hnull). revert Hp. run.
    by intros [= <-].
  - destruct (held_inv _ _ _ _ Hv) as (b & Hc & Hb). exists true.
    split; [by run|]. rewrite Hv. split; [split; eauto|].
    split; [|done]. intros _. exists T.
    destruct Hb as [[HT ->]|(HT & a & -> & Ha)]; eexists; (split; [by run|done]).
Qed.

(** A write through [c.target<T>()] changes the callable the container
    holds: the next call is a call of the written value, and no other
    container changes. *)
Theorem store_target_call s c T v w (args : Args) :
  held s c = Some (T, v) →
  ∃ p s', target T c s = Val p s
    ∧ store p w s = Val () s'
    ∧ held s' c = Some (T, w)
    ∧ operator_call c args s' =
        match call T w args with
        | inr r => Val r s'
        | inl e => Exn e s'
        end
    ∧ (∀ c', c' ≠ c → objs s' !! c' = objs s !! c').
Proof.
  intros (b & Hc & [[HT ->]|(HT & a & -> & Ha)])%held_inv.
  - exists (buf_ptr c). eexists. split; [by run|]. split; [run; reflexivity|].
    split; [unfold held; by run|].
    split; [run; by destruct (call T w args)|].
    intros c' Hc'. reduce. by repeat step.
  - exists (heap_ptr a). eexists. split; [by run|]. split; [run; reflexivity|].
    split; [unfold held; by run|].
    split; [run; by destruct (call T w args)|]. done.
Qed.

(** * The invariant of the store *)

(** ** What the invariant depends on *)

Lemma owned_frame s s' c :
  objs s' !! c = objs s !! c → owned s' c = owned s c.
Proof. unfold owned. by intros ->. Qed.

Lemma owned_inv s c a :
  owned s c = Some a →
  ∃ T, objs s !! c = Some (mk_function (func_desc T) (slot_ptr a))
       ∧ is_small T = false.
Proof.
  unfold owned. destruct (objs s !! c) as [[d b]|]; [|done]. simpl.
  destruct d as [|T]; [done|]. destruct (is_small T) eqn:HT; [done|].
  destruct b; try done. intros [= ->]. eauto.
Qed.

Lemma owned_live s c a : owned s c = Some a → is_Some (objs s !! c).
Proof. intros (T & Hc & _)%owned_inv. eauto. Qed.

Lemma consistent_owned s c a :
  consistent s c = true → owned s c = Some a → is_Some (heap s !! a).
Proof.
  intros Hcons (T & Hc & HT)%owned_inv.
  destruct (consistent_inv _ _ Hcons) as [[b Hb]|(U & u & Hu)]; [congruence|].
  destruct (held_inv _ _ _ _ Hu) as (b & Hc' & [[HU ->]|(HU & a' & -> & Ha)]);
    rewrite Hc in Hc'; simplify_eq; eauto.
Qed.

Lemma consistent_frame s s' c :
  objs s' !! c = objs s !! c →
  (∀ a, owned s c = Some a → heap s' !! a = heap s !! a) →
  consistent s' c = consistent s c.
Proof.
  intros Ho Hh. unfold consistent, held. rewrite Ho.
  destruct (objs s !! c) as [[d b]|] eqn:Hc; [|done]. simpl.
  destruct d as [|T]; [done|]. destruct (is_small T) eqn:HT; [done|].
  destruct b as [| |a]; try done.
  rewrite (Hh a); [done|]. unfold owned. by rewrite Hc; simpl; rewrite HT.
Qed.

(** The invariant only looks at the containers and the heap. *)
Lemma wf_ext s s' : objs s' = objs s → heap s' = heap s → wf s → wf s'.
Proof.
  intros Ho Hh (Hcons & Huniq & Hleak).
  assert (Hown : ∀ c, owned s' c = owned s c) by (intros; apply owned_frame; by rewrite Ho).
  split; [|split].
  - intros c Hc. rewrite (consistent_frame s s'); [|by rewrite Ho|by rewrite Hh].
    apply Hcons. by rewrite <- Ho.
  - intros c1 c2 a. rewrite !Hown. apply Huniq.
  - intros a Ha. rewrite Hh in Ha. destruct (Hleak a Ha) as [c Hc].
    exists c. by rewrite Hown.
Qed.

(** An operation that only touches the containers in [A] keeps the
    invariant when it leaves them consistent, changes no cell but those they
    owned or come to own, and hands each cell they owned on or gives it
    back. *)
Lemma wf_effect s s' (A : list cid) :
  wf s →
  (∀ c, c ∉ A → objs s' !! c = objs s !! c) →
  (∀ c, c ∈ A → is_Some (objs s' !! c) → consistent s' c = true) →
  (∀ a, heap s' !! a = heap s !! a
        ∨ (∃ c, c ∈ A ∧ owned s c = Some a)
        ∨ (heap s !! a = None ∧ ∃ c, c ∈ A ∧ owned s' c = Some a)) →
  (∀ c a, c ∈ A → owned s' c = Some a →
        heap s !! a = None ∨ ∃ c0, c0 ∈ A ∧ owned s c0 = Some a) →
  (∀ c1 c2 a, c1 ∈ A → c2 ∈ A →
        owned s' c1 = Some a → owned s' c2 = Some a → c1 = c2) →
  (∀ c0 a, c0 ∈ A → owned s c0 = Some a →
        heap s' !! a = None ∨ ∃ c, c ∈ A ∧ owned s' c = Some a) →
  wf s'.
Proof.
  intros (Hcons & Huniq & Hleak) E1 E2 E3 E4 E4' E5.
  assert (Hother : ∀ c a, c ∉ A → owned s' c = Some a →
            owned s c = Some a ∧ is_Some (heap s !! a)).
  { intros c a Hc Ho. rewrite (owned_frame s s') in Ho by auto.
    split; [done|]. eapply consistent_owned; [|done].
    apply Hcons. by eapply owned_live. }
  assert (Hmixed : ∀ c1 c2 a, c1 ∈ A → c2 ∉ A →
            owned s' c1 = Some a → owned s' c2 = Some a → False).
  { intros c1 c2 a H1 H2 Ho1 Ho2.
    destruct (Hother _ _ H2 Ho2) as [Ho2' [v Hv]].
    destruct (E4 _ _ H1 Ho1) as [Hnone|(c0 & Hc0 & Ho0)]; [congruence|].
    by rewrite (Huniq _ _ _ Ho0 Ho2') in Hc0. }
  split; [|split].
  - intros c Hc. destruct (decide (c ∈ A)) as [HA|HA]; [by apply E2|].
    rewrite (consistent_frame s s'); [|by apply E1|].
    + apply Hcons. by rewrite <- E1.
    + intros a Ho.
      destruct (E3 a) as [Heq|[(c0 & Hc0 & Ho0)|[Hnone _]]]; [done| |].
      * by rewrite (Huniq _ _ _ Ho0 Ho) in Hc0.
      * assert (is_Some (heap s !! a)) as [v Hv]; [|congruence].
        eapply consistent_owned; [|done]. apply Hcons. by eapply owned_live.
  - intros c1 c2 a Ho1 Ho2.
    destruct (decide (c1 ∈ A)) as [H1|H1], (decide (c2 ∈ A)) as [H2|H2].
    + by eapply E4'.
    + by destruct (Hmixed _ _ _ H1 H2 Ho1 Ho2).
    + by destruct (Hmixed _ _ _ H2 H1 Ho2 Ho1).
    + destruct (Hother _ _ H1 Ho1) as [Ho1' _], (Hother _ _ H2 Ho2) as [Ho2' _].
      by eapply Huniq.
  - intros a Ha.
    assert (Hold : ∀ c, owned s c = Some a → ∃ c', owned s' c' = Some a).
    { intros c Ho. destruct (decide (c ∈ A)) as [HA|HA].
      - destruct (E5 _ _ HA Ho) as [Hnone|(c' & _ & Ho')]; [|eauto].
        rewrite Hnone in Ha. by destruct Ha.
      - exists c. by rewrite (owned_frame s s') by auto. }
    destruct (E3 a) as [Heq|[(c0 & Hc0 & Ho0)|[_ (c & _ & Ho)]]]; [| |eauto].
    + rewrite Heq in Ha. destruct (Hleak a Ha) as [c Ho]. eauto.
    + eauto.
Qed.

(** ** The operations keep the invariant *)

Lemma not_elem_of_1 (c c1 : cid) : c ∉ [c1] → c1 ≠ c.
Proof. intros [? _]%not_elem_of_cons. done. Qed.

Lemma not_elem_of_2 (c c1 c2 : cid) : c ∉ [c1; c2] → c1 ≠ c ∧ c2 ≠ c.
Proof. intros [? [? _]%not_elem_of_cons]%not_elem_of_cons. done. Qed.

Lemma elem_of_1 (c : cid) : c ∈ [c].
Proof. by apply list_elem_of_singleton. Qed.

Lemma owned_dead s c : objs s !! c = None → owned s c = None.
Proof. unfold owned. by intros ->. Qed.

Lemma wf_function_default s c s' :
  wf s → final (function_default c s) = Some s' → wf s'.
Proof.
  intros Hwf. unfold_ops. destruct (objs s !! c) eqn:Hc; [done|].
  intros [= <-]. apply (wf_effect s _ [c]); [done|..]; reduce.
  - intros c' ?%not_elem_of_1. by repeat step.
  - intros c' ->%list_elem_of_singleton _. by facts.
  - by left.
  - intros c' a ->%list_elem_of_singleton. by facts.
  - intros c1 c2 a ->%list_elem_of_singleton ->%list_elem_of_singleton. done.
  - intros c' a ->%list_elem_of_singleton. by rewrite owned_dead.
Qed.

Lemma wf_function_value T c v s s' :
  wf s → final (function_value T c v s) = Some s' → wf s'.
Proof.
  intros Hwf.
  destruct (function_value T c v s) as [[] s1|e s1|] eqn:Hrun; [| |done];
    intros [= <-].
  - destruct (function_value_inv _ _ _ _ _ Hrun) as (Hc & v' & r & Hm & Hs1).
    destruct (is_small T) eqn:HT; [|destruct Hs1 as [_ Hs1]]; subst s1;
      apply (wf_effect s _ [c]); try done; reduce.
    + intros c' ?%not_elem_of_1. by repeat step.
    + intros c' ->%list_elem_of_singleton _. by facts.
    + by left.
    + intros c' a ->%list_elem_of_singleton. by facts.
    + intros c1 c2 a ->%list_elem_of_singleton ->%list_elem_of_singleton. done.
    + intros c' a ->%list_elem_of_singleton. by rewrite owned_dead.
    + intros c' ?%not_elem_of_1. by repeat step.
    + pose proof (fresh_dom_None (heap s)).
      intros c' ->%list_elem_of_singleton _. by facts.
    + pose proof (fresh_dom_None (heap s)) as Hfresh. intros a.
      destruct (decide (a = fresh (dom (heap s)))) as [->|].
      * right. right. split; [done|]. exists c. split; [apply elem_of_1|]. by facts.
      * left. by rewrite lookup_insert_ne.
    + pose proof (fresh_dom_None (heap s)) as Hfresh.
      intros c' a ->%list_elem_of_singleton. facts. intros [= <-]. by left.
    + intros c1 c2 a ->%list_elem_of_singleton ->%list_elem_of_singleton. done.
    + intros c' a ->%list_elem_of_singleton. by rewrite owned_dead.
  - revert Hrun. unfold_ops. destruct (objs s !! c) eqn:Hc; [done|].
    destruct (is_small T) eqn:HT; reduce.
    + destruct (small_move_construct T v HT) as (v' & r & Hm).
      rewrite Hm. reduce. repeat (step; reduce). done.
    + destruct (decide _); reduce.
      * destruct (move_construct T v) as [e'|[v' r]]; reduce.
        -- intros [= _ <-]. eapply wf_ext; [| |done]; reduce; [|done].
           by rewrite delete_insert_eq, delete_id.
        -- repeat (step; reduce). done.
      * intros [= _ <-]. eapply wf_ext; [| |done]; reduce; [|done].
        by rewrite delete_insert_eq, delete_id.
Qed.

Lemma elem_of_2 (c c1 c2 : cid) : c ∈ [c1; c2] → c = c1 ∨ c = c2.
Proof.
  intros [->|[->|[]%elem_of_nil]%elem_of_cons]%elem_of_cons; eauto.
Qed.

Lemma elem_of_2_l (c1 c2 : cid) : c1 ∈ [c1; c2].
Proof. apply elem_of_cons. by left. Qed.

Lemma elem_of_2_r (c1 c2 : cid) : c2 ∈ [c1; c2].
Proof. apply elem_of_cons. right. by apply list_elem_of_singleton. Qed.

(** What a copy construction that returns has done. *)
Lemma function_copy_inv s c rhs s' :
  consistent s rhs = true →
  function_copy c rhs s = Val () s' →
  objs s !! c = None ∧
  ((∃ b, objs s !! rhs = Some (mk_function empty_desc b)
      ∧ s' = mk_state (<[c := mk_function empty_desc slot_uninit]> (objs s))
               (heap s) (heap_cap s) (trace s))
   ∨ (∃ T v v1, held s rhs = Some (T, v) ∧ copy_ctor T v = inr v1 ∧
        if is_small T then
          s' = mk_state (<[c := mk_function (func_desc T) (slot_obj v1)]> (objs s))
                 (heap s) (heap_cap s) (trace s ++ [ev_copy T v])
        else
          let a := fresh (dom (heap s)) in
          (size (heap s) < heap_cap s)%nat ∧
          s' = mk_state (<[c := mk_function (func_desc T) (slot_ptr a)]> (objs s))
                 (<[a := v1]> (heap s)) (heap_cap s)
                 (trace s ++ [ev_new a; ev_copy T v]))).
Proof.
  intros Hcons Hrun.
  assert (Hc : objs s !! c = None).
  { revert Hrun. unfold_ops. destruct (objs s !! rhs); [|done]. reduce.
    by destruct (objs s !! c). }
  assert (c ≠ rhs).
  { intros ->. unfold consistent in Hcons. by rewrite Hc in Hcons. }
  split; [done|]. revert Hrun.
  destruct (consistent_inv _ _ Hcons) as [[b Hr]|(T & v & Hv)].
  - run. intros [= <-]. left. by exists b.
  - destruct (held_inv _ _ _ _ Hv) as (b & Hr & [[HT ->]|(HT & a & -> & Ha)]).
    + run. destruct (copy_ctor T v) as [e|v1] eqn:Hcopy; run; [done|].
      intros [= <-]. right. exists T, v, v1. rewrite HT.
      by rewrite insert_insert_eq.
    + unfold_ops. repeat (reduce; step). reduce.
      destruct (decide _); reduce; [|done]. repeat (step; reduce).
      destruct (copy_ctor T v) as [e|v1] eqn:Hcopy; reduce; repeat (step; reduce);
        [done|].
      intros [= <-]. right. exists T, v, v1. rewrite HT.
      by rewrite insert_insert_eq, <- app_assoc.
Qed.

Lemma wf_function_copy s c other s' :
  wf s → is_Some (objs s !! other) →
  final (function_copy c other s) = Some s' → wf s'.
Proof.
  intros Hwf Hlive.
  assert (Hcons : consistent s other = true) by by apply Hwf.
  destruct (function_copy c other s) as [[] s1|e s1|] eqn:Hrun; [| |done];
    intros [= <-].
  - destruct (function_copy_inv _ _ _ _ Hcons Hrun)
      as (Hc & [(b & Hr & ->)|(T & v & v1 & Hv & Hcopy & Hs1)]).
    + apply (wf_effect s _ [c]); try done; reduce.
      * intros c' ?%not_elem_of_1. by repeat step.
      * intros c' ->%list_elem_of_singleton _. by facts.
      * by left.
      * intros c' a ->%list_elem_of_singleton. by facts.
      * intros c1 c2 a ->%list_elem_of_singleton ->%list_elem_of_singleton. done.
      * intros c' a ->%list_elem_of_singleton. by rewrite owned_dead.
    + destruct (is_small T) eqn:HT; [|destruct Hs1 as [_ Hs1]]; subst s1;
        apply (wf_effect s _ [c]); try done; reduce.
      * intros c' ?%not_elem_of_1. by repeat step.
      * intros c' ->%list_elem_of_singleton _. by facts.
      * by left.
      * intros c' a ->%list_elem_of_singleton. by facts.
      * intros c1 c2 a ->%list_elem_of_singleton ->%list_elem_of_singleton. done.
      * intros c' a ->%list_elem_of_singleton. by rewrite owned_dead.
      * intros c' ?%not_elem_of_1. by repeat step.
      * pose proof (fresh_dom_None (heap s)).
        intros c' ->%list_elem_of_singleton _. by facts.
      * pose proof (fresh_dom_None (heap s)) as Hfresh. intros a.
        destruct (decide (a = fresh (dom (heap s)))) as [->|].
        -- right. right. split; [done|]. exists c. split; [apply elem_of_1|]. by facts.
        -- left. by rewrite lookup_insert_ne.
      * pose proof (fresh_dom_None (heap s)) as Hfresh.
        intros c' a ->%list_elem_of_singleton. facts. intros [= <-]. by left.
      * intros c1 c2 a ->%list_elem_of_singleton ->%list_elem_of_singleton. done.
      * intros c' a ->%list_elem_of_singleton. by rewrite owned_dead.
  - destruct (function_copy_throws _ _ _ _ _ Hrun). by eapply wf_ext.
Qed.

Lemma wf_destructor s c s' :
  wf s → is_Some (objs s !! c) →
  final (destructor c s) = Some s' → wf s'.
Proof.
  intros Hwf Hlive.
  assert (Hcons : consistent s c = true) by by apply Hwf.
  pose proof (destructor_effect s c Hcons) as Hrun.
  rewrite Hrun. intros [= <-].
  apply (wf_effect s _ [c]); try done; unfold release; reduce.
  - intros c' ?%not_elem_of_1. by rewrite lookup_delete_ne.
  - intros c' ->%list_elem_of_singleton. rewrite lookup_delete_eq. by intros [? [=]].
  - intros a. destruct (owned s c) as [a0|] eqn:Ho; reduce; [|by left].
    destruct (decide (a = a0)) as [->|].
    + right. left. exists c. split; [apply elem_of_1|done].
    + left. by rewrite lookup_delete_ne.
  - intros c' a ->%list_elem_of_singleton. unfold owned at 1. reduce.
    by rewrite lookup_delete_eq.
  - intros c1 c2 a ->%list_elem_of_singleton ->%list_elem_of_singleton. done.
  - intros c' a ->%list_elem_of_singleton ->. left. reduce.
    by rewrite lookup_delete_eq.
Qed.

Lemma live_true s c : live s c = true → is_Some (objs s !! c).
Proof. apply bool_decide_eq_true. Qed.

Lemma live_false s c : live s c = false → objs s !! c = None.
Proof. intros H%bool_decide_eq_false. by apply eq_None_not_Some. Qed.

(** What a move construction does. *)
Lemma function_move_effect s c other :
  consistent s other = true →
  objs s !! c = None →
  ∃ s', function_move c other s = Val () s'
    ∧ heap s' = heap s
    ∧ owned s' c = owned s other
    ∧ owned s' other = None
    ∧ held s' c = relocate (held s other)
    ∧ consistent s' c = true
    ∧ consistent s' other = true
    ∧ (∀ c', c' ≠ c → c' ≠ other → objs s' !! c' = objs s !! c').
Proof.
  intros Hcons Hc. assert (c ≠ other).
  { intros ->. unfold consistent in Hcons. by rewrite Hc in Hcons. }
  destruct (consistent_inv _ _ Hcons) as [[b Ho]|(T & v & Hv)];
    [|destruct (held_inv _ _ _ _ Hv) as (b & Ho & [[HT ->]|(HT & a & -> & Ha)]);
      [destruct (small_move_construct T v HT) as (v1 & rv1 & Hmv1)|]];
    (eexists; split; [run; reflexivity|];
     repeat (split; [by facts|]);
     intros c' ? ?; frame c').
Qed.

Lemma wf_function_move s c other s' :
  wf s → is_Some (objs s !! other) →
  final (function_move c other s) = Some s' → wf s'.
Proof.
  intros Hwf Hlive.
  assert (Hcons : consistent s other = true) by by apply Hwf.
  destruct (objs s !! c) eqn:Hc.
  { unfold_ops. destruct (objs s !! other); [|done]. reduce. by rewrite Hc. }
  destruct (function_move_effect s c other Hcons Hc)
    as (s1 & -> & Hheap & Hoc & Hoo & _ & Hcc & Hco & Hframe).
  intros [= <-]. apply (wf_effect s _ [c; other]); [done|..].
  - intros c' [? ?]%not_elem_of_2. by apply Hframe.
  - by intros c' [->| ->]%elem_of_2 _.
  - intros a. left. by rewrite Hheap.
  - intros c' a [->| ->]%elem_of_2; [|by rewrite Hoo].
    rewrite Hoc. intros Ho. right. exists other. split; [apply elem_of_2_r|done].
  - intros c1 c2 a [->| ->]%elem_of_2 [->| ->]%elem_of_2; try done;
      rewrite Hoo; done.
  - intros c0 a [->| ->]%elem_of_2.
    + by rewrite owned_dead.
    + intros Ho. right. exists c. split; [apply elem_of_2_l|]. by rewrite Hoc.
Qed.

Lemma wf_assign_move s this rhs s' :
  wf s → is_Some (objs s !! this) → is_Some (objs s !! rhs) →
  final (operator_assign_move this rhs s) = Some s' → wf s'.
Proof.
  intros Hwf Ht Hr.
  destruct (decide (this = rhs)) as [->|Hne].
  { unfold operator_assign_move. rewrite decide_True by done. by intros [= <-]. }
  assert (Hct : consistent s this = true) by by apply Hwf.
  assert (Hcr : consistent s rhs = true) by by apply Hwf.
  assert (Halias : ∀ a, owned s this = Some a → owned s rhs ≠ Some a).
  { intros a Ho1 Ho2. destruct Hwf as (_ & Huniq & _). by apply Hne, (Huniq _ _ a). }
  destruct (operator_assign_move_effect s this rhs Hne Hct Hcr Halias)
    as (s1 & -> & Hheap & Hot & Hor & _ & Hct' & Hcr' & Hframe).
  intros [= <-]. apply (wf_effect s _ [this; rhs]); [done|..].
  - intros c' [? ?]%not_elem_of_2. by apply Hframe.
  - by intros c' [->| ->]%elem_of_2 _.
  - intros a. rewrite Hheap. unfold release.
    destruct (owned s this) as [a0|] eqn:Ho; [|by left].
    destruct (decide (a = a0)) as [->|].
    + right. left. exists this. split; [apply elem_of_2_l|done].
    + left. by rewrite lookup_delete_ne.
  - intros c' a [->| ->]%elem_of_2; [|by rewrite Hor].
    rewrite Hot. intros Ho. right. exists rhs. split; [apply elem_of_2_r|done].
  - intros c1 c2 a [->| ->]%elem_of_2 [->| ->]%elem_of_2; try done;
      rewrite Hor; done.
  - intros c0 a [->| ->]%elem_of_2 Ho.
    + left. rewrite Hheap, Ho. apply lookup_delete_eq.
    + right. exists this. split; [apply elem_of_2_l|]. by rewrite Hot.
Qed.

Lemma wf_assign_copy s this rhs s' :
  wf s → is_Some (objs s !! this) → is_Some (objs s !! rhs) →
  final (operator_assign_copy this rhs s) = Some s' → wf s'.
Proof.
  intros Hwf Ht Hr.
  destruct (decide (this = rhs)) as [->|Hne].
  { unfold operator_assign_copy. rewrite decide_True by done. by intros [= <-]. }
  assert (Hct : consistent s this = true) by by apply Hwf.
  assert (Hcr : consistent s rhs = true) by by apply Hwf.
  assert (Halias : ∀ a, owned s this = Some a → owned s rhs ≠ Some a).
  { intros a Ho1 Ho2. destruct Hwf as (_ & Huniq & _). by apply Hne, (Huniq _ _ a). }
  assert (Heffect : ∀ s1 new,
    operator_assign_copy this rhs s = Val () s1 →
    consistent s1 this = true →
    owned s1 this = fst <$> new →
    (∀ a v, new = Some (a, v) → heap s !! a = None) →
    heap s1 = release (owned s this)
                (match new with Some (a, v) => <[a := v]> (heap s) | None => heap s end) →
    (∀ c, c ≠ this → objs s1 !! c = objs s !! c) →
    final (operator_assign_copy this rhs s) = Some s' → wf s').
  { intros s1 new -> Hcons Hown Hnew Hheap Hframe [= <-].
    apply (wf_effect s _ [this]); [done|..].
    - intros c ?%not_elem_of_1. by apply Hframe.
    - by intros c ->%list_elem_of_singleton _.
    - intros a. rewrite Hheap.
      destruct (owned s this) as [a0|] eqn:Ho; unfold release.
      + destruct (decide (a = a0)) as [->|].
        { right. left. exists this. split; [apply elem_of_1|done]. }
        rewrite lookup_delete_ne by done.
        destruct new as [[a1 v1]|]; [|by left].
        destruct (decide (a = a1)) as [->|]; [|left; by rewrite lookup_insert_ne].
        right. right. split; [by eapply Hnew|].
        exists this. split; [apply elem_of_1|]. by rewrite Hown.
      + destruct new as [[a1 v1]|]; [|by left].
        destruct (decide (a = a1)) as [->|]; [|left; by rewrite lookup_insert_ne].
        right. right. split; [by eapply Hnew|].
        exists this. split; [apply elem_of_1|]. by rewrite Hown.
    - intros c a ->%list_elem_of_singleton. rewrite Hown.
      destruct new as [[a1 v1]|]; [|done]. intros [= <-]. left. by eapply Hnew.
    - by intros c1 c2 a ->%list_elem_of_singleton ->%list_elem_of_singleton.
    - intros c a ->%list_elem_of_singleton Ho. left.
      rewrite Hheap, Ho. apply lookup_delete_eq. }
  destruct (function_copy (fresh (dom (objs s))) rhs s) as [[] s1|e s1|] eqn:Hcopy.
  - destruct (function_copy_inv _ _ _ _ Hcr Hcopy)
      as (_ & [(b & Hrb & _)|(T & v & v1 & Hv & Hcp & Hs1)]).
    + destruct (operator_assign_copy_empty s this rhs b Hne Hct Hrb)
        as (s2 & Hrun & _ & _ & Hcons & Hown & Hheap & _ & Hframe).
      by apply (Heffect s2 None).
    + destruct (is_small T) eqn:HT.
      * assert (Hroom : is_small T = false → (size (heap s) < heap_cap s)%nat)
          by (intros; congruence).
        destruct (operator_assign_copy_holding s this rhs T v v1
                    Hne Hct Hv Halias Hcp Hroom)
          as (s2 & Hrun & _ & _ & Hcons & Hown & Hheap & Hframe).
        rewrite HT in Hown, Hheap. by apply (Heffect s2 None).
      * destruct Hs1 as [Hroom _].
        destruct (operator_assign_copy_holding s this rhs T v v1
                    Hne Hct Hv Halias Hcp (λ _, Hroom))
          as (s2 & Hrun & _ & _ & Hcons & Hown & Hheap & Hframe).
        rewrite HT in Hown, Hheap.
        apply (Heffect s2 (Some (fresh (dom (heap s)), v1))); try done.
        intros a v0 [= <- _]. apply fresh_dom_None.
  - unfold operator_assign_copy, temporary, bind.
    rewrite decide_False, Hcopy by done. intros [= <-].
    destruct (function_copy_throws _ _ _ _ _ Hcopy). by eapply wf_ext.
  - unfold operator_assign_copy, temporary, bind.
    rewrite decide_False, Hcopy by done. done.
Qed.

(** The boolean conversion, a call and [target] leave the store alone. *)
Lemma readonly_bool s c s' : final (operator_bool c s) = Some s' → s' = s.
Proof. unfold_ops. destruct (objs s !! c); simpl; by intros [=]. Qed.

Lemma readonly_target T s c s' : final (target T c s) = Some s' → s' = s.
Proof.
  unfold_ops. destruct (objs s !! c) as [[d b]|] eqn:Hc; simpl; [|done].
  destruct (decide _); simpl; [|by intros [=]].
  destruct (is_small T); simpl; [by intros [=]|].
  rewrite Hc. simpl. destruct b; simpl; by intros [=].
Qed.

Lemma readonly_call s c (args : Args) s' :
  final (operator_call c args s) = Some s' → s' = s.
Proof.
  unfold_ops. destruct (objs s !! c) as [[d b]|] eqn:Hc; simpl; [|done].
  destruct d as [|T]; simpl.
  - rewrite ?bool_decide_eq_false_2 by auto. simpl. by intros [=].
  - rewrite ?bool_decide_eq_true_2 by done. simpl. rewrite ?Hc. simpl.
    destruct (is_small T); simpl; rewrite ?Hc; simpl.
    + destruct b; simpl; try done. by destruct (call T v args); intros [=].
    + destruct b as [| |a]; simpl; try done.
      destruct (heap s !! a) as [v|]; simpl; [|done].
      by destruct (call T v args); intros [=].
Qed.

Lemma wf_store T s c w s' :
  wf s → is_Some (objs s !! c) →
  final ((p ← target T c; store p w) s) = Some s' → wf s'.
Proof.
  intros Hwf Hlive.
  assert (Hcons : consistent s c = true) by by apply Hwf.
  destruct (consistent_inv _ _ Hcons) as [[b Hc]|(U & u & Hu)].
  { by run. }
  destruct (held_inv _ _ _ _ Hu) as (b & Hc & Hb).
  destruct (decide (U = T)) as [->|]; [|by run].
  destruct Hb as [[HT ->]|(HT & a & -> & Ha)]; run; intros [= <-].
  - apply (wf_effect s _ [c]); try done; reduce.
    + intros c' ?%not_elem_of_1. by repeat step.
    + intros c' ->%list_elem_of_singleton _. by facts.
    + by left.
    + intros c' a ->%list_elem_of_singleton. by facts.
    + by intros c1 c2 a ->%list_elem_of_singleton ->%list_elem_of_singleton.
    + intros c' a ->%list_elem_of_singleton. by facts.
  - assert (Ho : owned s c = Some a) by (unfold owned; by run).
    apply (wf_effect s _ [c]); try done; reduce.
    + intros c' ->%list_elem_of_singleton _. by facts.
    + intros a'. destruct (decide (a' = a)) as [->|].
      * right. left. exists c. split; [apply elem_of_1|done].
      * left. by rewrite lookup_insert_ne.
    + intros c' a' ->%list_elem_of_singleton. rewrite (owned_frame s) by done.
      intros ?. right. exists c. split; [apply elem_of_1|done].
    + by intros c1 c2 a' ->%list_elem_of_singleton ->%list_elem_of_singleton.
    + intros c' a' ->%list_elem_of_singleton ?. right. exists c.
      split; [apply elem_of_1|]. by rewrite (owned_frame s).
Qed.

Lemma wf_init cap : wf (mk_state (∅ : gmap cid (function_obj tname val)) ∅ cap []).
Proof.
  split; [|split].
  - intros c [o Ho]. simpl in Ho. by rewrite lookup_empty in Ho.
  - intros c1 c2 a Ho. unfold owned in Ho. simpl in Ho.
    by rewrite lookup_empty in Ho.
  - intros a [v Hv]. simpl in Hv. by rewrite lookup_empty in Hv.
Qed.

(** Every call of the interface keeps the invariant, whether it returns or
    throws. *)
Lemma step_api_wf (a : api tname val Args) s s' :
  wf s → step_api a s = Some s' → wf s'.
Proof.
  intros Hwf. destruct a; simpl.
  - by apply wf_function_default.
  - by apply wf_function_value.
  - destruct (live s other) eqn:Ho; [|done].
    apply wf_function_copy; [done|by apply live_true].
  - destruct (live s other) eqn:Ho; [|done].
    apply wf_function_move; [done|by apply live_true].
  - destruct (live s c) eqn:Hc; [|done].
    apply wf_destructor; [done|by apply live_true].
  - destruct (live s this) eqn:Ht, (live s rhs) eqn:Hr; try done.
    apply wf_assign_copy; [done|by apply live_true..].
  - destruct (live s this) eqn:Ht, (live s rhs) eqn:Hr; try done.
    apply wf_assign_move; [done|by apply live_true..].
  - destruct (live s c) eqn:Hc; [|done]. by intros ->%readonly_bool.
  - destruct (live s c) eqn:Hc; [|done]. by intros ->%readonly_call.
  - destruct (live s c) eqn:Hc; [|done]. by intros ->%readonly_target.
  - destruct (live s c) eqn:Hc; [|done].
    apply wf_store; [done|by apply live_true].
Qed.

(** Every store a program reaches satisfies the invariant: each live
    container is bound to the empty record or to the record of the type of
    the callable its slot holds, no two containers own the same heap cell,
    and every heap cell is owned by a container. *)
Theorem reachable_wf s : reachable s → wf s.
Proof.
  induction 1 as [cap|a s s' _ IH Hstep].
  - apply wf_init.
  - by eapply step_api_wf.
Qed.

(** Nothing leaks: in a store a program reaches in which every container has
    been destroyed, the heap is empty. *)
Theorem reachable_no_leak s : reachable s → objs s = ∅ → heap s = ∅.
Proof.
  intros Hreach.
  assert (wf s) as (_ & _ & Hleak).
  { induction Hreach; [apply wf_init|by eapply step_api_wf]. }
  intros Hobjs. apply map_empty. intros a.
  destruct (heap s !! a) as [v|] eqn:Ha; [|done].
  destruct (Hleak a) as [c Hc]; [eauto|].
  apply owned_live in Hc as [o Ho]. by rewrite Hobjs, lookup_empty in Ho.
Qed.

End properties.


(** * The properties on the concrete program *)

(** A type whose move constructor is [noexcept] and whose destructor is
    [noexcept(false)] fits the slot by size and alignment, yet is not
    small. *)
Lemma is_small_move_ctor_counterexample :
  ¬ (is_small Example.ThrowDtor = true ↔
       sizeof Example.ThrowDtor ≤ sizeof_ptr
       ∧ alignof_storage_t `mod` alignof Example.ThrowDtor = 0
       ∧ nothrow_move_ctor Example.ThrowDtor = true).
Proof.
  intros [_ Hsmall].
  assert (is_small Example.ThrowDtor = true) as Habsurd.
  { apply Hsmall. vm_compute. split; [discriminate|]. split; reflexivity. }
  vm_compute in Habsurd. discriminate Habsurd.
Qed.

(** [Adder] is small; [Table] is too large, [Legacy] has no [noexcept] move
    constructor and [ThrowDtor] no [noexcept] destructor.
    [function<int(int)> f = Adder{5};] puts the object in the slot,
    [f = ThrowDtor{5};] and [f = Table{5};] put it in a heap cell; the record of
    [Table] calls, copies, moves and destroys the object through the pointer
    in the slot, that of [Adder] the object in the slot. *)
Lemma is_small_spec_witness :
  (is_small Example.Adder = true
   ∧ is_small Example.Table = false
   ∧ is_small Example.Legacy = false
   ∧ is_small Example.ThrowDtor = false)
  ∧ (∃ s', function_value Example.Adder 1%positive 5 Example.s0 = Val () s'
       ∧ objs s' !! 1%positive = Some (mk_function (func_desc Example.Adder) (slot_obj 5))
       ∧ heap s' = ∅)
  ∧ (∃ s' a, function_value Example.ThrowDtor 1%positive 5 Example.s0 = Val () s'
       ∧ objs s' !! 1%positive = Some (mk_function (func_desc Example.ThrowDtor) (slot_ptr a))
       ∧ heap s' = {[a := 5]})
  ∧ (∃ a, get_pointer Example.Table 1%positive Example.s_table = Val (heap_ptr a) Example.s_table
       ∧ load (heap_ptr a) Example.s_table = Val 5 Example.s_table)
  ∧ (get_pointer Example.Adder 1%positive Example.s_adder = Val (buf_ptr 1%positive) Example.s_adder)
  ∧ (∃ s' a, copy (result Example.Table) 1%positive 2%positive Example.s_mixed = Val () s'
       ∧ buf <$> objs s' !! 2%positive = Some (slot_ptr a)
       ∧ heap s' = <[a := 5]> (heap Example.s_mixed))
  ∧ (∃ s' a, move (result Example.Table) 1%positive 2%positive Example.s_mixed = Val () s'
       ∧ buf <$> objs Example.s_mixed !! 1%positive = Some (slot_ptr a)
       ∧ buf <$> objs s' !! 2%positive = Some (slot_ptr a))
  ∧ (∃ s', destroy (result Example.Adder) 1%positive Example.s_adder = Val () s'
       ∧ buf <$> objs s' !! 1%positive = Some slot_uninit)
  ∧ (∃ s', destroy (result Example.Table) 1%positive Example.s_table = Val () s'
       ∧ heap s' = ∅)
  ∧ invoke (result Example.Adder) 1%positive 3 Example.s_adder = Val 8 Example.s_adder
  ∧ invoke (result Example.Adder) 1%positive 3 Example.s_table = Undef.
Proof.
  pose proof (is_small_spec Example.Adder)
    as (Hadder & _ & Hvalue_a & Hptr_a & _ & _ & Hdestroy_a & Hinvoke_a & Hother_a).
  pose proof (is_small_spec Example.Table)
    as (Htable & _ & _ & Hptr_t & Hcopy_t & Hmove_t & Hdestroy_t & _ & _).
  pose proof (is_small_spec Example.Legacy) as (Hlegacy & _).
  pose proof (is_small_spec Example.ThrowDtor) as (Hdtor & _ & Hvalue_d & _).
  assert (is_small Example.Adder = true) as Ha.
  { apply Hadder. simpl. split; [lia|]. repeat split. }
  assert (is_small Example.Table = false) as Ht.
  { apply not_true_is_false. intros Hsmall.
    apply Htable in Hsmall as [Hsize _]. simpl in Hsize. lia. }
  assert (is_small Example.Legacy = false) as Hl.
  { apply not_true_is_false. intros Hsmall.
    apply Hlegacy in Hsmall as (_ & _ & Hmove & _). discriminate Hmove. }
  assert (is_small Example.ThrowDtor = false) as Hd.
  { apply not_true_is_false. intros Hsmall.
    apply Hdtor in Hsmall as (_ & _ & _ & Hnothrow). discriminate Hnothrow. }
  split; [auto|].
  split.
  { destruct (Hvalue_a 1%positive 5 5 0 Example.s0) as (s' & Hrun & Hlayout).
    - vm_compute. reflexivity.
    - vm_compute. reflexivity.
    - intros Hsmall. rewrite Ha in Hsmall. discriminate Hsmall.
    - rewrite Ha in Hlayout. destruct Hlayout as [Hobj Hheap].
      exists s'. auto. }
  split.
  { destruct (Hvalue_d 1%positive 5 5 0 Example.s0) as (s' & Hrun & Hlayout).
    - vm_compute. reflexivity.
    - vm_compute. reflexivity.
    - intros _. vm_compute. lia.
    - rewrite Hd in Hlayout. destruct Hlayout as (a & _ & Hobj & Hheap).
      exists s', a. auto. }
  split.
  { destruct (Hptr_t 1%positive Example.s_table 5) as (p & Hrun & Hload & Hlayout).
    - vm_compute. reflexivity.
    - rewrite Ht in Hlayout. destruct Hlayout as (a & -> & _).
      exists a. auto. }
  split.
  { destruct (Hptr_a 1%positive Example.s_adder 5) as (p & Hrun & Hload & Hlayout).
    - vm_compute. reflexivity.
    - rewrite Ha in Hlayout. subst p. exact Hrun. }
  split.
  { destruct (Hcopy_t 1%positive 2%positive Example.s_mixed 5 5)
      as (s' & Hrun & Hlayout).
    - discriminate.
    - vm_compute. reflexivity.
    - vm_compute. eauto.
    - vm_compute. reflexivity.
    - intros _. vm_compute. lia.
    - rewrite Ht in Hlayout. destruct Hlayout as (a & _ & Hbuf & Hheap).
      exists s', a. auto. }
  split.
  { destruct (Hmove_t 1%positive 2%positive Example.s_mixed 5)
      as (s' & Hrun & _ & Hlayout).
    - discriminate.
    - vm_compute. reflexivity.
    - vm_compute. eauto.
    - rewrite Ht in Hlayout. destruct Hlayout as (a & Hsrc & Hdst).
      exists s', a. auto. }
  split.
  { destruct (Hdestroy_a 1%positive Example.s_adder 5) as (s' & Hrun & Hlayout).
    - vm_compute. reflexivity.
    - rewrite Ha in Hlayout. destruct Hlayout as [Hbuf _].
      exists s'. auto. }
  split.
  { destruct (Hdestroy_t 1%positive Example.s_table 5) as (s' & Hrun & Hlayout).
    - vm_compute. reflexivity.
    - rewrite Ht in Hlayout. destruct Hlayout as (a & Hbuf & _ & Hheap).
      exists s'. split; [exact Hrun|]. rewrite Hheap.
      vm_compute in Hbuf. injection Hbuf as <-. vm_compute. reflexivity. }
  split.
  { refine (eq_trans (Hinvoke_a 1%positive 3 Example.s_adder 5 _) _);
      vm_compute; reflexivity. }
  { apply (Hother_a 1%positive (func_desc Example.Table) 3 Example.s_table).
    rewrite Ha. exists 1%positive. vm_compute. reflexivity. }
Defined.

(** An empty container throws, a held [Adder{5}] adds 5, a held [Fragile]
    lets the exception of its call through. *)
Lemma operator_call_spec_witness :
  operator_call 1%positive 3 Example.s_empty = Exn bad_function_call Example.s_empty
  ∧ operator_call 1%positive 3 Example.s_adder = Val 8 Example.s_adder
  ∧ operator_call 1%positive (-3) Example.s_fragile = Exn (thrown 3) Example.s_fragile.
Proof.
  split; [|split].
  - apply (proj1 (operator_call_spec Example.s_empty 1%positive 3) slot_uninit).
    vm_compute. reflexivity.
  - refine (eq_trans
      (proj2 (operator_call_spec Example.s_adder 1%positive 3) Example.Adder 5 _) _);
      vm_compute; reflexivity.
  - refine (eq_trans
      (proj2 (operator_call_spec Example.s_fragile 1%positive (-3)) Example.Fragile (-1) _) _);
      vm_compute; reflexivity.
Defined.

(** [function<int(int)> f = Adder{5};] and [f = Table{5};] are non-empty. *)
Lemma function_value_nonempty_witness :
  operator_bool 1%positive Example.s_adder = Val true Example.s_adder
  ∧ operator_bool 1%positive Example.s_table = Val true Example.s_table.
Proof.
  split.
  - apply (function_value_nonempty Example.Adder 1%positive 5 Example.s0 Example.s_adder).
    vm_compute. reflexivity.
  - apply (function_value_nonempty Example.Table 1%positive 5 Example.s0 Example.s_table).
    vm_compute. reflexivity.
Defined.

(** Round trip for a type stored in place and for one stored in a heap cell. *)
Lemma target_function_value_witness :
  deref_target Example.Adder 1%positive Example.s_adder = Val 5 Example.s_adder
  ∧ deref_target Example.Table 1%positive Example.s_table = Val 5 Example.s_table.
Proof.
  split.
  - destruct (target_function_value Example.Adder 1%positive 5 0 Example.s0)
      as (s' & p & Hrun & _ & _ & _ & _ & Hderef).
    + vm_compute. reflexivity.
    + vm_compute. reflexivity.
    + intros _. vm_compute. lia.
    + change (function_value Example.Adder 1%positive 5 Example.s0)
        with (Val (tname := Example.tname) () Example.s_adder) in Hrun.
      injection Hrun as <-. exact Hderef.
  - destruct (target_function_value Example.Table 1%positive 5 0 Example.s0)
      as (s' & p & Hrun & _ & _ & _ & _ & Hderef).
    + vm_compute. reflexivity.
    + vm_compute. reflexivity.
    + intros _. vm_compute. lia.
    + change (function_value Example.Table 1%positive 5 Example.s0)
        with (Val (tname := Example.tname) () Example.s_table) in Hrun.
      injection Hrun as <-. exact Hderef.
Defined.

(** [target] on a container that holds an [Adder{5}]: for [Adder] a non-null
    pointer to 5; for [Scaler], which has the size, alignment and signature
    of [Adder], null. *)
Lemma target_spec_witness :
  (∃ p, target Example.Adder 1%positive Example.s_adder = Val p Example.s_adder
        ∧ p ≠ nullptr ∧ load p Example.s_adder = Val 5 Example.s_adder)
  ∧ target Example.Scaler 1%positive Example.s_adder = Val nullptr Example.s_adder.
Proof.
  split.
  - destruct (target_spec Example.s_adder 1%positive Example.Adder)
      as (p & Hrun & Hiff & Hheld & _).
    + vm_compute. reflexivity.
    + assert (Hp : p ≠ nullptr) by (apply Hiff; vm_compute; reflexivity).
      exists p. split; [exact Hrun|]. split; [exact Hp|].
      destruct (Hheld Hp) as (v & Hv & Hload).
      assert (v = 5) as -> by (vm_compute in Hv; congruence).
      exact Hload.
  - destruct (target_spec Example.s_adder 1%positive Example.Scaler)
      as (p & Hrun & _ & _ & _ & Hother).
    + vm_compute. reflexivity.
    + rewrite Hrun. f_equal.
      apply (Hother Example.Adder 5); [vm_compute; reflexivity|discriminate].
Defined.

(** Default construction on free storage. *)
Lemma function_default_spec_witness :
  operator_bool 1%positive Example.s_empty = Val false Example.s_empty
  ∧ destructor 1%positive Example.s_empty = Val () Example.s0.
Proof.
  destruct (function_default_spec Example.s0 1%positive)
    as (s' & Hrun & Hbool & _ & _ & _ & _ & Hdtor); [vm_compute; reflexivity|].
  change (function_default 1%positive Example.s0)
    with (Val (tname := Example.tname) (val := Z) () Example.s_empty) in Hrun.
  injection Hrun as <-. split; assumption.
Defined.

(** Moving out of a container that holds [Table{5}]. *)
Lemma function_move_spec_witness :
  ∃ s', function_move 2%positive 1%positive Example.s_table = Val () s'
    ∧ operator_bool 1%positive s' = Val false s'
    ∧ held s' 2%positive = Some (Example.Table, 5).
Proof.
  destruct (function_move_spec Example.s_table 1%positive 2%positive Example.Table 5)
    as (s' & v' & Hrun & Hbool & _ & _ & Hheld & Hlarge & _).
  - vm_compute. reflexivity.
  - vm_compute. reflexivity.
  - exists s'. split; [exact Hrun|]. split; [exact Hbool|].
    rewrite Hheld, Hlarge; reflexivity.
Defined.

(** Copying a container that holds [Table{5}] and writing 9 through the
    copy. *)
Lemma function_copy_independent_witness :
  ∃ s' p2 s'', function_copy 2%positive 1%positive Example.s_table = Val () s'
    ∧ target Example.Table 2%positive s' = Val p2 s'
    ∧ store p2 9 s' = Val () s''
    ∧ deref_target Example.Table 1%positive s'' = Val 5 s''
    ∧ deref_target Example.Table 2%positive s'' = Val 9 s''.
Proof.
  destruct (function_copy_independent Example.s_table 1%positive 2%positive
              Example.Table 5)
    as (s' & p1 & p2 & Hrun & _ & _ & _ & Hp2 & _ & _ & _ & Hstore).
  - vm_compute. reflexivity.
  - vm_compute. reflexivity.
  - vm_compute. reflexivity.
  - intros _. vm_compute. lia.
  - destruct (Hstore 9) as (s'' & Hst & H1 & H2).
    exists s', p2, s''. repeat split; assumption.
Defined.

(** [g = f] where [f] holds a [Fragile] whose copy constructor throws:
    [g] still holds its [Adder{6}]. *)
Lemma operator_assign_copy_strong_witness :
  (∃ s1, operator_assign_copy 2%positive 1%positive Example.s_fragile = Exn (thrown 7) s1
     ∧ held s1 2%positive = Some (Example.Adder, 6))
  ∧ (∃ s', operator_assign_copy 2%positive 1%positive Example.s_two = Val () s'
       ∧ held s' 2%positive = Some (Example.Table, 5)
       ∧ held s' 1%positive = Some (Example.Table, 5)).
Proof.
  split.
  - exists (Example.exec (function_copy 3%positive 1%positive) Example.s_fragile).
    destruct (operator_assign_copy_strong Example.s_fragile 2%positive 1%positive)
      as (_ & Hthrow & _).
    destruct (Hthrow ltac:(discriminate) (thrown 7)
                (Example.exec (function_copy 3%positive 1%positive) Example.s_fragile))
      as (Hrun & _ & _ & Hheld & _).
    + vm_compute. reflexivity.
    + split; [exact Hrun|]. rewrite Hheld. vm_compute. reflexivity.
  - destruct (operator_assign_copy_strong Example.s_two 2%positive 1%positive)
      as (_ & _ & _ & Hreturn).
    destruct (Hreturn ltac:(discriminate) Example.Table 5 0)
      as (s' & Hrun & Hthis & Hrhs & _).
    + vm_compute. reflexivity.
    + vm_compute. reflexivity.
    + intros a Ha. vm_compute in Ha. discriminate.
    + vm_compute. reflexivity.
    + intros Hsmall. vm_compute in Hsmall. discriminate.
    + intros _. vm_compute. lia.
    + exists s'. repeat split; assumption.
Defined.

(** [g = std::move(f)] where [g] holds [Adder{6}] and [f] holds [Table{5}]. *)
Lemma operator_assign_move_spec_witness :
  ∃ s', operator_assign_move 2%positive 1%positive Example.s_two = Val () s'
    ∧ held s' 2%positive = Some (Example.Table, 5)
    ∧ held s' 1%positive = None
    ∧ trace s' = trace Example.s_two ++ [ev_dtor Example.Adder 6].
Proof.
  destruct (operator_assign_move_spec Example.s_two 2%positive 1%positive)
    as (_ & _ & Hmove).
  destruct Hmove as (s' & Hrun & _ & _ & Hrhs & Hthis & _ & _ & Htrace).
  - discriminate.
  - vm_compute. reflexivity.
  - vm_compute. reflexivity.
  - intros a Ha. vm_compute in Ha. discriminate.
  - exists s'. split; [exact Hrun|].
    destruct (Hthis Example.Table 5) as (v' & Hheld & Hlarge & _);
      [vm_compute; reflexivity|].
    split; [rewrite Hheld, Hlarge; reflexivity|].
    split; [exact Hrhs|].
    rewrite Htrace. vm_compute. reflexivity.
Defined.

(** * The further properties on the concrete program *)

(** How the program reaches [s_two] and [s_gone]. *)
Lemma reachable_s_two : reachable Example.s_two.
Proof.
  apply (reachable_step (api_value Example.Adder 2%positive 6) Example.s_table);
    [|vm_compute; reflexivity].
  apply (reachable_step (api_value Example.Table 1%positive 5) Example.s0);
    [|vm_compute; reflexivity].
  apply (reachable_init 4).
Defined.

Lemma reachable_s_gone : reachable Example.s_gone.
Proof.
  apply (reachable_step (api_destructor 1%positive) Example.s_table);
    [|vm_compute; reflexivity].
  apply (reachable_step (api_value Example.Table 1%positive 5) Example.s0);
    [|vm_compute; reflexivity].
  apply (reachable_init 4).
Defined.

(** Destroying the container that holds [Table{5}] empties the heap. *)
Lemma destructor_spec_witness :
  ∃ s', destructor 1%positive Example.s_table = Val () s' ∧ heap s' = ∅.
Proof.
  eexists. split.
  - apply (destructor_spec Example.s_table 1%positive). vm_compute. reflexivity.
  - vm_compute. reflexivity.
Defined.


(** [Adder{5}] costs no cell, [Table{5}] one. *)
Lemma function_value_allocation_witness :
  heap Example.s_adder = heap Example.s0
  ∧ size (heap Example.s_table) = S (size (heap Example.s0)).
Proof.
  split.
  - assert (Hrun : function_value Example.Adder 1%positive 5 Example.s0 =
              Val () Example.s_adder) by (vm_compute; reflexivity).
    pose proof (function_value_allocation _ _ _ _ _ Hrun) as Halloc.
    change (is_small Example.Adder) with true in Halloc. exact Halloc.
  - assert (Hrun : function_value Example.Table 1%positive 5 Example.s0 =
              Val () Example.s_table) by (vm_compute; reflexivity).
    pose proof (function_value_allocation _ _ _ _ _ Hrun) as Halloc.
    change (is_small Example.Table) with false in Halloc.
    destruct Halloc as (a & v' & _ & _ & _ & Hsize). exact Hsize.
Defined.

(** Copying and moving from the empty [f]. *)
Lemma function_from_empty_witness :
  (∃ s', function_copy 2%positive 1%positive Example.s_empty = Val () s'
     ∧ heap s' = ∅ ∧ trace s' = [])
  ∧ (∃ s', function_move 2%positive 1%positive Example.s_empty = Val () s'
       ∧ heap s' = heap Example.s_empty).
Proof.
  destruct (function_from_empty Example.s_empty 2%positive 1%positive slot_uninit)
    as (Hcopy & s' & Hmove & _ & _ & _ & Hheap & _).
  - vm_compute. reflexivity.
  - vm_compute. reflexivity.
  - split.
    + eexists. split; [exact Hcopy|]. split; vm_compute; reflexivity.
    + exists s'. split; assumption.
Defined.

(** Copying the container that holds [Fragile{-1}] throws what the copy
    constructor throws. *)
Lemma function_copy_failure_witness :
  function_copy 3%positive 1%positive Example.s_fragile ≠ Undef
  ∧ ∃ T v, held Example.s_fragile 1%positive = Some (T, v)
      ∧ ((is_small T = false ∧ thrown 7 = bad_alloc
          ∧ (heap_cap Example.s_fragile ≤ size (heap Example.s_fragile))%nat)
         ∨ copy_ctor T v = inl (thrown 7)).
Proof.
  destruct (function_copy_failure Example.s_fragile 3%positive 1%positive)
    as (Hdef & Hexn).
  - vm_compute. reflexivity.
  - vm_compute. reflexivity.
  - split; [exact Hdef|].
    apply (Hexn (thrown 7)
             (Example.exec (function_copy 3%positive 1%positive) Example.s_fragile)).
    vm_compute. reflexivity.
Defined.

(** Swapping [f], which holds [Table{5}], and [g], which holds [Adder{6}]. *)
Lemma swap_spec_witness :
  ∃ s', swap 1%positive 2%positive Example.s_two = Val () s'
    ∧ held s' 1%positive = Some (Example.Adder, 6)
    ∧ held s' 2%positive = Some (Example.Table, 5)
    ∧ heap s' = heap Example.s_two.
Proof.
  destruct (swap_spec Example.s_two 1%positive 2%positive)
    as (s' & Hrun & H1 & H2 & _ & _ & _ & _ & Hheap & _).
  - discriminate.
  - vm_compute. reflexivity.
  - vm_compute. reflexivity.
  - exists s'. split; [exact Hrun|].
    split; [rewrite H1; vm_compute; reflexivity|].
    split; [rewrite H2; vm_compute; reflexivity|exact Hheap].
Defined.

(** [g = f] where [f] holds [Table{5}] and [g] holds [Adder{6}]. *)
Lemma operator_assign_copy_effect_witness :
  ∃ s', operator_assign_copy 2%positive 1%positive Example.s_two = Val () s'
    ∧ held s' 2%positive = Some (Example.Table, 5)
    ∧ held s' 1%positive = Some (Example.Table, 5)
    ∧ size (heap s') = 2%nat.
Proof.
  destruct (operator_assign_copy_effect Example.s_two 2%positive 1%positive
              Example.Table 5 5)
    as (s' & Hrun & Hthis & Hrhs & _ & Hheap & _).
  - discriminate.
  - vm_compute. reflexivity.
  - vm_compute. reflexivity.
  - intros a Ha. vm_compute in Ha. discriminate.
  - vm_compute. reflexivity.
  - intros _. vm_compute. lia.
  - exists s'. split; [exact Hrun|].
    split; [rewrite Hthis; vm_compute; reflexivity|].
    split; [exact Hrhs|]. rewrite Hheap. vm_compute. reflexivity.
Defined.

(** [f = g] where [f] holds [Table{5}] and [g] is empty: the table is
    destroyed and its cell given back.  [f = g] where [f] holds [Adder{5}]:
    the adder is moved into the temporary and destroyed there. *)
Lemma operator_assign_copy_from_empty_witness :
  (∃ s' a, operator_assign_copy 1%positive 2%positive Example.s_mixed = Val () s'
     ∧ operator_bool 1%positive s' = Val false s'
     ∧ heap s' = ∅
     ∧ trace s' = trace Example.s_mixed
                    ++ [ev_dtor Example.Table 5; ev_delete a])
  ∧ (∃ s', operator_assign_copy 1%positive 2%positive Example.s_small = Val () s'
     ∧ operator_bool 1%positive s' = Val false s'
     ∧ trace s' = trace Example.s_small
                    ++ [ev_move Example.Adder 5; ev_dtor Example.Adder 0;
                        ev_dtor Example.Adder 5]).
Proof.
  split.
  - destruct (operator_assign_copy_from_empty Example.s_mixed 1%positive 2%positive
                slot_uninit)
      as (s' & Hrun & _ & Hbool & _ & Hheap & Htrace & _).
    + discriminate.
    + vm_compute. reflexivity.
    + vm_compute. reflexivity.
    + exists s', 1%positive. split; [exact Hrun|]. split; [exact Hbool|].
      split; [rewrite Hheap; vm_compute; reflexivity|].
      rewrite Htrace. vm_compute. reflexivity.
  - destruct (operator_assign_copy_from_empty Example.s_small 1%positive 2%positive
                slot_uninit)
      as (s' & Hrun & _ & Hbool & _ & _ & Htrace & _).
    + discriminate.
    + vm_compute. reflexivity.
    + vm_compute. reflexivity.
    + exists s'. split; [exact Hrun|]. split; [exact Hbool|].
      rewrite Htrace. vm_compute. reflexivity.
Defined.

(** The pointer to [Table{5}] survives the move of its container. *)
Lemma target_after_move_witness :
  ∃ p s', target Example.Table 1%positive Example.s_table = Val p Example.s_table
    ∧ function_move 2%positive 1%positive Example.s_table = Val () s'
    ∧ target Example.Table 2%positive s' = Val p s'
    ∧ load p s' = Val 5 s'.
Proof.
  destruct (target_after_move Example.s_table 1%positive 2%positive Example.Table 5)
    as (p & s' & Hp & Hrun & _ & Hrest).
  - vm_compute. reflexivity.
  - vm_compute. reflexivity.
  - change (is_small Example.Table) with false in Hrest.
    destruct Hrest as [Hp2 Hload]. exists p, s'. repeat split; assumption.
Defined.

(** After [function g(std::move(f))] with [f] holding [Adder{5}]. *)
Lemma call_after_move_witness :
  ∃ s', function_move 2%positive 1%positive Example.s_adder = Val () s'
    ∧ operator_call 1%positive 3 s' = Exn bad_function_call s'
    ∧ operator_call 2%positive 3 s' = Val 8 s'.
Proof.
  destruct (call_after_move Example.s_adder 1%positive 2%positive Example.Adder 5 3)
    as (s' & v' & Hrun & Hrel & H1 & H2).
  - vm_compute. reflexivity.
  - vm_compute. reflexivity.
  - assert (v' = 5) as -> by (vm_compute in Hrel; congruence).
    exists s'. split; [exact Hrun|]. split; [exact H1|]. exact H2.
Defined.

(** [{ function<int(int)> f = Table{5}; }] leaves nothing behind. *)
Lemma function_value_destructor_witness :
  ∃ s'', destructor 1%positive Example.s_table = Val () s''
    ∧ objs s'' = objs Example.s0 ∧ heap s'' = heap Example.s0.
Proof.
  destruct (function_value_destructor Example.Table 1%positive 5 Example.s0
              Example.s_table) as (s'' & Hrun & Ho & Hh & _).
  - vm_compute. reflexivity.
  - exists s''. repeat split; assumption.
Defined.

(** [{ function<int(int)> g(f); }] leaves [f] and the heap as they were. *)
Lemma function_copy_destructor_witness :
  ∃ s'', destructor 2%positive
           (Example.exec (function_copy 2%positive 1%positive) Example.s_table)
         = Val () s''
    ∧ objs s'' = objs Example.s_table ∧ heap s'' = heap Example.s_table.
Proof.
  destruct (function_copy_destructor Example.s_table 1%positive 2%positive
              (Example.exec (function_copy 2%positive 1%positive) Example.s_table))
    as (s'' & Hrun & Ho & Hh & _).
  - vm_compute. reflexivity.
  - vm_compute. reflexivity.
  - exists s''. repeat split; assumption.
Defined.

(** [bool(f)] for the [f] that holds [Adder{5}] and for the empty [f]. *)
Lemma operator_bool_target_witness :
  operator_bool 1%positive Example.s_adder = Val true Example.s_adder
  ∧ operator_bool 1%positive Example.s_empty = Val false Example.s_empty.
Proof.
  split.
  - destruct (operator_bool_target Example.s_adder 1%positive)
      as (b & Hrun & Hheld & _); [vm_compute; reflexivity|].
    assert (b = true) as ->; [|exact Hrun].
    apply Hheld. vm_compute. eauto.
  - destruct (operator_bool_target Example.s_empty 1%positive)
      as (b & Hrun & Hheld & _); [vm_compute; reflexivity|].
    destruct b; [|exact Hrun].
    destruct (proj1 Hheld eq_refl) as [x Hx]. vm_compute in Hx. discriminate.
Defined.

(** [*f.target<Adder>() = Adder{10}; f(3)] is 13. *)
Lemma store_target_call_witness :
  ∃ p s', target Example.Adder 1%positive Example.s_adder = Val p Example.s_adder
    ∧ store p 10 Example.s_adder = Val () s'
    ∧ operator_call 1%positive 3 s' = Val 13 s'.
Proof.
  destruct (store_target_call Example.s_adder 1%positive Example.Adder 5 10 3)
    as (p & s' & Hp & Hstore & _ & Hcall & _).
  - vm_compute. reflexivity.
  - exists p, s'. repeat split; assumption.
Defined.

(** The invariant holds of [s_two]. *)
Lemma reachable_wf_witness : wf Example.s_two.
Proof. apply reachable_wf, reachable_s_two. Defined.

(** Once [f] is destroyed the heap is empty. *)
Lemma reachable_no_leak_witness : heap Example.s_gone = ∅.
Proof.
  apply reachable_no_leak; [apply reachable_s_gone|]. vm_compute. reflexivity.
Defined.
